(** * A private blockchain ledger (src/src/blockchain.js)

    Shallow embedding of the [Blockchain] class: the chain array and the
    cached height are explicit state, every method is a function from the
    state before the call to the state after it together with the settlement
    of the promise the method returns.

    Conventions of the embedding.
    - JavaScript numbers that hold heights, indices and epoch seconds are
      mathematical integers ([Z]); [NaN] is [None].
    - A promise settles at most once: [resolve] and [reject] on a settled
      promise do nothing, and neither of them ends the executor that calls it.
    - An exception that escapes an [async] executor settles nothing: the
      promise built around that executor keeps the settlement it had.
    - One operation runs at a time (the ledger has a single writer), so the
      code after an [await] sees the state the code before it left.
    - [crypto-js/sha256], [JSON.stringify] on a block, [bitcoinjs-message]
      and the body codec of block.js are parameters of the development. *)

From Stdlib Require Import ZArith List String Ascii Bool Lia DecimalString DecimalPos.
Import ListNotations.
Open Scope string_scope.
Open Scope list_scope.
Open Scope Z_scope.

Set Warnings "-register-all".

(** ** JavaScript values and built-ins used by the class *)

Module JS.

(** Plain structured data, as [JSON.parse] yields and [req.body] carries. *)
Inductive Value : Type :=
| Null
| Boolean (b : bool)
| Number (n : Z)
| Str (s : string)
| Arr (items : list Value)
| Obj (fields : list (string * Value)).

(** [ToBoolean]: what [v && ...] tests. *)
Definition truthy (v : Value) : bool :=
  match v with
  | Null => false
  | Boolean b => b
  | Number n => negb (n =? 0)
  | Str s => negb (String.eqb s "")
  | Arr _ | Obj _ => true
  end.

Fixpoint assoc (k : string) (fields : list (string * Value)) : option Value :=
  match fields with
  | [] => None
  | (k', v) :: rest => if String.eqb k k' then Some v else assoc k rest
  end.

(** [v.k] on a value that is neither [null] nor [undefined]; [None] is
    [undefined]. *)
Definition prop (k : string) (v : Value) : option Value :=
  match v with
  | Obj fields => assoc k fields
  | _ => None
  end.

(** [v.k === s] for a string [s]. *)
Definition prop_is_string (k : string) (v : Value) (s : string) : bool :=
  match prop k v with
  | Some (Str s') => String.eqb s' s
  | _ => false
  end.

(** [s.split(sep)] for a one-character separator. *)
Fixpoint split_aux (sep : ascii) (s : string) (cur : string) : list string :=
  match s with
  | EmptyString => [cur]
  | String c rest =>
      if Ascii.eqb c sep then cur :: split_aux sep rest ""
      else split_aux sep rest (cur ++ String c "")%string
  end.

Definition split (sep : ascii) (s : string) : list string :=
  split_aux sep s "".

(** [s.slice(0, -3)]: all but the last three characters. *)
Definition slice_0_m3 (s : string) : string :=
  substring 0 (String.length s - 3) s.

(** [n.toString()] for an integer. *)
Definition toString (n : Z) : string :=
  NilZero.string_of_int (Z.to_int n).

Definition isStrWhiteSpace (c : ascii) : bool :=
  let n := nat_of_ascii c in
  (Nat.eqb n 32 || (Nat.leb 9 n && Nat.leb n 13))%bool.

Fixpoint trimStart (s : string) : string :=
  match s with
  | String c rest => if isStrWhiteSpace c then trimStart rest else s
  | EmptyString => s
  end.

Definition digitValue (c : ascii) : option Z :=
  let n := Z.of_nat (nat_of_ascii c) in
  if (48 <=? n) && (n <=? 57) then Some (n - 48)
  else if (97 <=? n) && (n <=? 122) then Some (n - 87)
  else if (65 <=? n) && (n <=? 90) then Some (n - 55)
  else None.

(** The longest prefix of digits of the radix, read most significant
    first; [None] when the prefix is empty. *)
Fixpoint readDigits (radix : Z) (s : string) (acc : option Z) : option Z :=
  match s with
  | EmptyString => acc
  | String c rest =>
      match digitValue c with
      | Some d =>
          if d <? radix
          then readDigits radix rest
                 (Some (match acc with Some a => a * radix + d | None => d end))
          else acc
      | None => acc
      end
  end.

(** [parseInt(s)] without a radix; [None] is [NaN], [parseInt(undefined)]
    is [parseInt None]. *)
Definition parseIntStr (s : string) : option Z :=
  let s1 := trimStart s in
  let '(neg, s2) :=
    match s1 with
    | String "-" rest => (true, rest)
    | String "+" rest => (false, rest)
    | _ => (false, s1)
    end in
  let '(radix, s3) :=
    match s2 with
    | String "0" (String "x" rest) => (16, rest)
    | String "0" (String "X" rest) => (16, rest)
    | _ => (10, s2)
    end in
  match readDigits radix s3 None with
  | Some n => Some (if neg then - n else n)
  | None => None
  end.

Definition parseInt (s : option string) : option Z :=
  match s with
  | Some s => parseIntStr s
  | None => None
  end.

(** Strings made of the characters 0 to 9. *)
Fixpoint isDecimal (s : string) : bool :=
  match s with
  | EmptyString => true
  | String c rest =>
      let n := Z.of_nat (nat_of_ascii c) in
      (48 <=? n) && (n <=? 57) && isDecimal rest
  end.

(** Array read [a[i]] at a number [i]; [None] is [undefined]. *)
Definition index {A : Type} (a : list A) (i : Z) : option A :=
  if i <? 0 then None else nth_error a (Z.to_nat i).

End JS.

(** ** Promises *)

(** One entry of the error log of [validateChain]. *)
Inductive Finding : Type :=
| InvalidHeight (blockHeight : Z) (expected : Z)
    (* {blockHeight, critical: `Invalid block heights. Previous block height: ${expected}`} *)
| PreviousHashDiscrepancy (blockHeight : Z)
    (* {blockHeight, previousHash: 'Previous Hash Discrepancy'} *)
| CurrentHashDiscrepancy (blockHeight : Z).
    (* {blockHeight, currentHash: 'Current Hash Discrepancy'} *)

(** What the class rejects with. *)
Inductive Rejection : Type :=
| BlockHeightDiscrepancy                   (* 'Block height discrepancy!' *)
| ValidationErrors (errors : list Finding) (* reject(areErrors) *)
| TimedOutOrNotVerified                    (* 'Error: Timed out or not verified.' *)
| NotFound.                                (* reject(false) *)

Inductive Promise (A : Type) : Type :=
| Pending
| Fulfilled (value : A)
| Rejected (reason : Rejection).

Arguments Pending {A}.
Arguments Fulfilled {A} value.
Arguments Rejected {A} reason.

Definition resolve {A : Type} (v : A) (p : Promise A) : Promise A :=
  match p with
  | Pending => Fulfilled v
  | _ => p
  end.

Definition reject {A : Type} (r : Rejection) (p : Promise A) : Promise A :=
  match p with
  | Pending => Rejected r
  | _ => p
  end.


(** Sequencing of code that can throw: [None] is a thrown exception. *)
Definition bindThrow {A B : Type} (c : option A) (k : A -> option B) : option B :=
  match c with
  | Some a => k a
  | None => None
  end.

Notation "x <- c ;; k" := (bindThrow c (fun x => k))
  (at level 61, c at next level, right associativity).

(** ** Blocks *)

Module Block.

(** The fields of a block object; [None] in [hash] and [previousBlockHash]
    is [null]. *)
Record t : Type := make {
  hash : option string;
  height : Z;
  body : string;
  time : string;
  previousBlockHash : option string }.

Definition set_hash (v : option string) (b : t) : t :=
  make v (height b) (body b) (time b) (previousBlockHash b).

Definition set_height (v : Z) (b : t) : t :=
  make (hash b) v (body b) (time b) (previousBlockHash b).

Definition set_time (v : string) (b : t) : t :=
  make (hash b) (height b) (body b) v (previousBlockHash b).

Definition set_previousBlockHash (v : option string) (b : t) : t :=
  make (hash b) (height b) (body b) (time b) v.

End Block.

Abbreviation Block := Block.t.

Definition option_string_eqb (a b : option string) : bool :=
  match a, b with
  | Some x, Some y => String.eqb x y
  | None, None => true
  | _, _ => false
  end.

(** The two npm libraries the class requires, and [JSON.stringify]. Each is
    taken to return on every argument; in particular [verify] answers with
    a boolean and does not throw. *)
Class Libraries : Type := {
  (** [SHA256(s).toString()] of crypto-js *)
  SHA256 : string -> string;
  (** [JSON.stringify] applied to a block object *)
  JSON_stringify : Block -> string;
  (** [bitcoinMessage.verify(message, address, signature)] *)
  verify : string -> string -> string -> bool }.

(** Modelled from the spec: the Record Codec of block.js, which is not among
    the sources. [encode] is total, [decode] fails ([None]) on malformed
    input. *)
Class RecordCodec : Type := {
  encode : JS.Value -> string;
  decode : string -> option JS.Value }.

Section BlockMethods.

Context {L : Libraries} {C : RecordCodec}.

(** Modelled from the spec: the constructor of block.js, [new Block(data)].
    An unsealed block carries the encoded payload, no hash and no previous
    hash; height and time are assigned when the block is sealed. *)
Definition Block_new (data : JS.Value) : Block :=
  Block.make None 0 (encode data) "" None.

(** The content hash of a block: SHA256 over the JSON text of the block
    while its [hash] field is still [null]. *)
Definition contentHash (b : Block) : string :=
  SHA256 (JSON_stringify (Block.set_hash None b)).

(** Modelled from the spec: [block.validate()] of block.js recomputes the
    content hash over height, previous hash, time and body and compares it
    with the stored hash; [true] is a resolved promise, [false] a rejected
    one. *)
Definition Block_validate (b : Block) : bool :=
  option_string_eqb (Block.hash b) (Some (contentHash b)).

(** Modelled from the spec: [block.getBData()] of block.js decodes the body
    of a block other than the genesis block; [None] is no recoverable
    payload (the genesis block, or a body that does not decode). *)
Definition Block_getBData (b : Block) : option JS.Value :=
  if Block.height b =? 0 then None else decode (Block.body b).

End BlockMethods.

(** ** The Blockchain class *)

(** [this.chain] and [this.height]. *)
Record Blockchain : Type := mkBlockchain {
  chain : list Block;
  height : Z }.

(** [a.entries()]: the pairs of index and element. *)
Definition entries {A : Type} (a : list A) : list (Z * A) :=
  combine (map Z.of_nat (seq 0 (List.length a))) a.

(** [new Date().getTime().toString().slice(0, -3)] when the clock reads
    [now] milliseconds. *)
Definition epochSeconds (now : Z) : string :=
  JS.slice_0_m3 (JS.toString now).

(** The payloads the class hands to [new Block]. *)
Definition genesisData : JS.Value :=
  JS.Obj [("data", JS.Str "Genesis Block")].

Definition starData (address : string) (star : JS.Value) : JS.Value :=
  JS.Obj [("owner", JS.Str address); ("star", star)].

Section Methods.

Context {L : Libraries} {C : RecordCodec}.

(** The body of the [for] loop of [validateChain] at one entry. Reading
    [self.chain[index - 1].height] when there is no such element throws. *)
Definition checkEntry (chain : list Block) (index : Z) (block : Block)
    (errorLog : list Finding) : option (list Finding) :=
  log1 <- (if Block.height block >? 0 then
             prev <- JS.index chain (index - 1) ;;
             Some (if negb (Block.height block =? Block.height prev + 1)
                   then errorLog ++
                        [InvalidHeight (Block.height block) (Block.height prev + 1)]
                   else errorLog)
           else Some errorLog) ;;
  log2 <- (if Block.height block >? 0 then
             prev <- JS.index chain (index - 1) ;;
             Some (if negb (option_string_eqb (Block.previousBlockHash block)
                                              (Block.hash prev))
                   then log1 ++ [PreviousHashDiscrepancy (Block.height block)]
                   else log1)
           else Some log1) ;;
  Some (if Block_validate block then log2
        else log2 ++ [CurrentHashDiscrepancy (Block.height block)]).

Fixpoint validateEntries (chain : list Block) (todo : list (Z * Block))
    (errorLog : list Finding) : option (list Finding) :=
  match todo with
  | [] => Some errorLog
  | (index, block) :: rest =>
      log' <- checkEntry chain index block errorLog ;;
      validateEntries chain rest log'
  end.

(** [validateChain()]. The executor receives [resolve] only; when the loop
    throws, the [catch] clause calls an unbound [reject], which throws in
    turn, and the promise stays pending. *)
Definition validateChain (self : Blockchain)
    : Blockchain * Promise (list Finding) :=
  match validateEntries (chain self) (entries (chain self)) [] with
  | Some errorLog => (self, resolve errorLog Pending)
  | None => (self, Pending)
  end.

(** The assignments [_addBlock] makes to the block once [this.height] is
    [height]: the height, the previous hash when the height is above 0, the
    time and the hash. Reading [self.chain[self.height - 1].hash] when there
    is no such element throws. *)
Definition sealBlock (chain : list Block) (height : Z) (block : Block) (now : Z)
    : option Block :=
  let block := Block.set_height height block in
  block <- (if height >? 0 then
              prev <- JS.index chain (height - 1) ;;
              Some (Block.set_previousBlockHash (Block.hash prev) block)
            else Some block) ;;
  let block := Block.set_time (epochSeconds now) block in
  Some (Block.set_hash (Some (SHA256 (JSON_stringify block))) block).

(** [_addBlock(block)] when the clock reads [now]. The [reject] of the
    height check does not leave the executor; an exception while sealing
    does, after [++self.height]. *)
Definition _addBlock (self : Blockchain) (block : Block) (now : Z)
    : Blockchain * Promise Block :=
  let p := if negb (Z.of_nat (List.length (chain self)) - height self =? 1)
           then reject BlockHeightDiscrepancy Pending
           else Pending in
  let self := mkBlockchain (chain self) (height self + 1) in
  match sealBlock (chain self) (height self) block now with
  | None => (self, p)
  | Some block =>
      let self := mkBlockchain (chain self ++ [block]) (height self) in
      match validateChain self with
      | (self, Fulfilled areErrors) =>
          (self, if 0 <? Z.of_nat (List.length areErrors)
                 then reject (ValidationErrors areErrors) p
                 else resolve block p)
      | (self, Rejected ValidationError) => (self, reject ValidationError p)
      | (self, Pending) => (self, p)
      end
  end.

(** [initializeChain()]; a rejection of [_addBlock] is logged and dropped. *)
Definition initializeChain (self : Blockchain) (now : Z) : Blockchain :=
  if height self =? -1
  then fst (_addBlock self (Block_new genesisData) now)
  else self.

(** [new Blockchain()]. *)
Definition Blockchain_new (now : Z) : Blockchain :=
  initializeChain (mkBlockchain [] (-1)) now.

Definition getChainHeight (self : Blockchain) : Blockchain * Promise Z :=
  (self, resolve (height self) Pending).

Definition requestMessageOwnershipVerification (self : Blockchain)
    (address : string) (now : Z) : Blockchain * Promise string :=
  (self, resolve (address ++ ":" ++ epochSeconds now ++ ":starRegistry")%string
                 Pending).

(** [parseInt(new Date().getTime().toString().slice(0, -3))] and
    [parseInt(message.split(':')[1])]. *)
Definition timeNow (now : Z) : option Z :=
  JS.parseInt (Some (epochSeconds now)).

Definition messageTime (message : string) : option Z :=
  JS.parseInt (nth_error (JS.split ":" message) 1).

(** [timeNow - messageTime < 300]; a comparison with [NaN] is false. *)
Definition withinTimelock (timeNow messageTime : option Z) : bool :=
  match timeNow, messageTime with
  | Some n, Some m => n - m <? 300
  | _, _ => false
  end.

(** The result of a [submitStar] call: the ledger after it, the settlement
    of its promise, and the calls made to [bitcoinMessage.verify]. *)
Record Submitted : Type := mkSubmitted {
  ledger : Blockchain;
  outcome : Promise Block;
  verifyCalls : list (string * string * string) }.

(** [submitStar(address, message, signature, star)]; the clock reads [now]
    at the timelock check and [sealNow] when the block is sealed. *)
Definition submitStar (self : Blockchain) (address message signature : string)
    (star : JS.Value) (now sealNow : Z) : Submitted :=
  let messageTime := messageTime message in
  let timeNow := timeNow now in
  if withinTimelock timeNow messageTime then
    let calls := [(message, address, signature)] in
    if verify message address signature then
      let newBlock := Block_new (starData address star) in
      match _addBlock self newBlock sealNow with
      | (self, Fulfilled addBlock) =>
          mkSubmitted self
            (reject TimedOutOrNotVerified (resolve addBlock Pending)) calls
      | (self, Rejected errorLog) =>
          mkSubmitted self
            (reject TimedOutOrNotVerified (reject errorLog Pending)) calls
      | (self, Pending) => mkSubmitted self Pending calls
      end
    else mkSubmitted self (reject TimedOutOrNotVerified Pending) calls
  else mkSubmitted self (reject TimedOutOrNotVerified Pending) [].

(** [self.chain.filter(f)[0]], then [resolve] or [reject(false)]. *)
Definition firstMatch (f : Block -> bool) (self : Blockchain)
    : Blockchain * Promise Block :=
  match nth_error (filter f (chain self)) 0 with
  | Some block => (self, resolve block Pending)
  | None => (self, reject NotFound Pending)
  end.

Definition getBlockByHash (self : Blockchain) (hash : string)
    : Blockchain * Promise Block :=
  firstMatch (fun b => option_string_eqb (Block.hash b) (Some hash)) self.

Definition getBlockByHeight (self : Blockchain) (height : Z)
    : Blockchain * Promise Block :=
  firstMatch (fun block => Block.height block =? height) self.

(** [tamperTest(height)], the development hook; [height] is the value of
    [+height], [None] for [NaN]. Its assignments are commented out. *)
Definition tamperTest (self : Blockchain) (height : option Z)
    : Blockchain * Promise bool :=
  let getBlock :=
    nth_error (filter (fun block =>
                         match height with
                         | Some h => Block.height block =? h
                         | None => false
                         end) (chain self)) 0 in
  let p := match getBlock with
           | None => reject NotFound Pending
           | Some _ => Pending
           end in
  (self, resolve true p).

(** *** getStarsByWalletAddress

    The array [stars] is one object: the promise is resolved with a
    reference to it and the callbacks of [forEach] push onto it. Each
    callback is an [async] function, so it runs up to its
    [await star.getBData()] and is suspended there; the rest of it runs
    later, as a microtask. *)

Inductive ArrayRef : Type := starsRef.

Record StarsRun : Type := mkStarsRun {
  (** contents of the array that [stars] names *)
  stars : list JS.Value;
  (** the callbacks suspended at their [await], oldest first, each with what
      the [getBData] it awaits gives *)
  suspended : list (option JS.Value);
  (** the promise [getStarsByWalletAddress] returned *)
  returned : Promise ArrayRef }.

(** One call of the callback of [forEach], up to its [await]:
    [star.getBData()] is called and the callback is suspended on it. *)
Definition startCallback (run : StarsRun) (star : Block) : StarsRun :=
  mkStarsRun (stars run) (suspended run ++ [Block_getBData star]) (returned run).

(** The call itself: [forEach] over the chain, then [resolve(stars)]. *)
Definition getStarsByWalletAddress (self : Blockchain) (address : string)
    : Blockchain * StarsRun :=
  let run := fold_left startCallback (chain self) (mkStarsRun [] [] Pending) in
  (self, mkStarsRun (stars run) (suspended run) (resolve starsRef (returned run))).

(** The rest of a callback, after its [await]:
    [if (body && body.owner === address) stars.push(body)]. A callback whose
    [getBData] gave nothing pushes nothing. *)
Definition resumeCallback (address : string) (awaited : option JS.Value)
    (stars : list JS.Value) : list JS.Value :=
  match awaited with
  | Some body =>
      if JS.truthy body && JS.prop_is_string "owner" body address
      then stars ++ [body]
      else stars
  | None => stars
  end.

(** The oldest [n] suspended callbacks run to their end. *)
Fixpoint runCallbacks (address : string) (n : nat) (run : StarsRun) : StarsRun :=
  match n, suspended run with
  | S n', awaited :: rest =>
      runCallbacks address n'
        (mkStarsRun (resumeCallback address awaited (stars run)) rest
                    (returned run))
  | _, _ => run
  end.

(** What a reader of the returned promise finds in the array. *)
Definition starsSeen (run : StarsRun) : option (list JS.Value) :=
  match returned run with
  | Fulfilled starsRef => Some (stars run)
  | _ => None
  end.

End Methods.

(** ** What the specification asks of the two list-valued operations *)

Section Specifications.

Context {L : Libraries} {C : RecordCodec}.

(** The payloads of an owner, in the words of the specification: the decoded
    payloads of the blocks other than the genesis block whose [owner] is the
    address, in chain order, skipping the bodies that do not decode. *)
Definition payloadsByOwner_spec (chain : list Block) (address : string)
    : list JS.Value :=
  flat_map (fun b =>
              if Block.height b =? 0 then []
              else match decode (Block.body b) with
                   | Some payload =>
                       if JS.prop_is_string "owner" payload address
                       then [payload] else []
                   | None => []
                   end) chain.

(** The finding of the hash check on one block. *)
Definition tamperFinding (block : Block) : list Finding :=
  if Block_validate block then []
  else [CurrentHashDiscrepancy (Block.height block)].

(** The findings of the Chain Integrity Validator, in the words of the
    specification: for each block at an index above 0, compared with the
    block before it. *)
Definition findings_spec (prev block : Block) : list Finding :=
  (if Block.height block =? Block.height prev + 1 then []
   else [InvalidHeight (Block.height block) (Block.height prev + 1)]) ++
  (if option_string_eqb (Block.previousBlockHash block) (Block.hash prev) then []
   else [PreviousHashDiscrepancy (Block.height block)]) ++
  (if Block_validate block then []
   else [CurrentHashDiscrepancy (Block.height block)]).

Fixpoint validateFrom_spec (prev : Block) (rest : list Block) : list Finding :=
  match rest with
  | [] => []
  | block :: rest' => findings_spec prev block ++ validateFrom_spec block rest'
  end.

Definition validateChain_spec (chain : list Block) : list Finding :=
  match chain with
  | [] => []
  | first :: rest => validateFrom_spec first rest
  end.

(** The findings as the code gates them: the height and linkage checks run
    on a block whose own height is above 0, the hash check on every block,
    the first one included. *)
Definition findings_gated (prev block : Block) : list Finding :=
  (if Block.height block >? 0 then
     (if Block.height block =? Block.height prev + 1 then []
      else [InvalidHeight (Block.height block) (Block.height prev + 1)]) ++
     (if option_string_eqb (Block.previousBlockHash block) (Block.hash prev) then []
      else [PreviousHashDiscrepancy (Block.height block)])
   else []) ++
  (if Block_validate block then []
   else [CurrentHashDiscrepancy (Block.height block)]).

Fixpoint validateFrom_gated (prev : Block) (rest : list Block) : list Finding :=
  match rest with
  | [] => []
  | block :: rest' => findings_gated prev block ++ validateFrom_gated block rest'
  end.

Definition validateChain_gated (chain : list Block) : list Finding :=
  match chain with
  | [] => []
  | first :: rest =>
      (if Block_validate first then []
       else [CurrentHashDiscrepancy (Block.height first)]) ++
      validateFrom_gated first rest
  end.

End Specifications.

(** ** Reachable ledgers and their invariant *)

Section Reachability.

Context {L : Libraries} {C : RecordCodec}.

(** The ledgers the class can be in: the one its constructor builds, and
    the one left by an [_addBlock] of a new block that resolved. *)
Inductive reachable : Blockchain -> Prop :=
| reach_new (now : Z) : reachable (Blockchain_new now)
| reach_append (self : Blockchain) (data : JS.Value) (now : Z)
    (self' : Blockchain) (block : Block) :
    reachable self ->
    _addBlock self (Block_new data) now = (self', Fulfilled block) ->
    reachable self'.

(** [block] continues the chain after [prev]. *)
Definition follows (prev block : Block) : Prop :=
  Block.height block = Block.height prev + 1 /\
  Block.previousBlockHash block = Block.hash prev.

Fixpoint linkedFrom (prev : Block) (rest : list Block) : Prop :=
  match rest with
  | [] => True
  | block :: rest' =>
      follows prev block /\ Block_validate block = true /\ linkedFrom block rest'
  end.

Definition isGenesis (g : Block) : Prop :=
  Block.height g = 0 /\ Block.previousBlockHash g = None /\
  Block.body g = encode genesisData.

(** The invariant of the ledger: a genesis block, every later block linked
    to the one before it, every stored hash the content hash, and the
    cached height one less than the length of the chain. *)
Definition sound (self : Blockchain) : Prop :=
  exists g rest,
    chain self = g :: rest /\ isGenesis g /\ Block_validate g = true /\
    linkedFrom g rest /\ height self = Z.of_nat (List.length rest).

(** The promise of [_addBlock] after its height check. *)
Definition afterHeightCheck (self : Blockchain) : Promise Block :=
  if negb (Z.of_nat (List.length (chain self)) - height self =? 1)
  then reject BlockHeightDiscrepancy Pending
  else Pending.

(** How [_addBlock] settles once the block is pushed. *)
Definition afterValidation (self' : Blockchain) (block : Block)
    (p : Promise Block) : Promise Block :=
  match snd (validateChain self') with
  | Fulfilled areErrors =>
      if 0 <? Z.of_nat (List.length areErrors)
      then reject (ValidationErrors areErrors) p
      else resolve block p
  | Rejected ValidationError => reject ValidationError p
  | Pending => p
  end.

(** The sealed block when sealing reads the block before it. *)
Definition sealedAfter (prev : option Block) (h : Z) (block : Block) (now : Z)
    : Block :=
  let block := Block.set_height h block in
  let block := match prev with
               | Some p => Block.set_previousBlockHash (Block.hash p) block
               | None => block
               end in
  let block := Block.set_time (epochSeconds now) block in
  Block.set_hash (Some (SHA256 (JSON_stringify block))) block.

(** The calls a client of the class can make. *)
Inductive Call : Type :=
| CallInitializeChain (now : Z)
| CallGetChainHeight
| CallAddBlock (block : Block) (now : Z)
| CallRequestMessage (address : string) (now : Z)
| CallSubmitStar (address message signature : string) (star : JS.Value)
    (now sealNow : Z)
| CallGetBlockByHash (hash : string)
| CallGetBlockByHeight (height : Z)
| CallGetStars (address : string)
| CallValidateChain
| CallTamperTest (height : option Z).

(** The ledger a call leaves behind. *)
Definition ledgerAfter (c : Call) (self : Blockchain) : Blockchain :=
  match c with
  | CallInitializeChain now => initializeChain self now
  | CallGetChainHeight => fst (getChainHeight self)
  | CallAddBlock block now => fst (_addBlock self block now)
  | CallRequestMessage address now =>
      fst (requestMessageOwnershipVerification self address now)
  | CallSubmitStar address message signature star now sealNow =>
      ledger (submitStar self address message signature star now sealNow)
  | CallGetBlockByHash hash => fst (getBlockByHash self hash)
  | CallGetBlockByHeight height => fst (getBlockByHeight self height)
  | CallGetStars address => fst (getStarsByWalletAddress self address)
  | CallValidateChain => fst (validateChain self)
  | CallTamperTest height => fst (tamperTest self height)
  end.

End Reachability.

(** ** A small concrete instance, for running the model *)

Module Demo.

Definition showOption (o : option string) : string :=
  match o with
  | Some s => s
  | None => "null"
  end.

(** Stand-ins for the libraries: a tagging digest, a field-by-field
    rendering of a block, and a signature that is the tagged pair of
    address and message. *)
Definition digest (s : string) : string := ("sha256(" ++ s ++ ")")%string.

Definition render (b : Block) : string :=
  ("{hash:" ++ showOption (Block.hash b) ++
   ",height:" ++ JS.toString (Block.height b) ++
   ",body:" ++ Block.body b ++
   ",time:" ++ Block.time b ++
   ",previousBlockHash:" ++ showOption (Block.previousBlockHash b) ++ "}")%string.

Definition sign (address message : string) : string :=
  ("sig(" ++ address ++ "," ++ message ++ ")")%string.

Definition checkSignature (message address signature : string) : bool :=
  String.eqb signature (sign address message).

#[export] Instance libraries : Libraries :=
  {| SHA256 := digest; JSON_stringify := render; verify := checkSignature |}.

Fixpoint print (v : JS.Value) : string :=
  match v with
  | JS.Null => "null"
  | JS.Boolean b => if b then "true" else "false"
  | JS.Number n => JS.toString n
  | JS.Str s => ("'" ++ s ++ "'")%string
  | JS.Arr items =>
      ("[" ++ (fix go (l : list JS.Value) : string :=
                 match l with
                 | [] => ""
                 | x :: r => print x ++ "," ++ go r
                 end) items ++ "]")%string
  | JS.Obj fields =>
      ("{" ++ (fix go (l : list (string * JS.Value)) : string :=
                 match l with
                 | [] => ""
                 | (k, x) :: r => k ++ ":" ++ print x ++ "," ++ go r
                 end) fields ++ "}")%string
  end.

Definition sirius : JS.Value := JS.Obj [("name", JS.Str "Sirius")].
Definition vega : JS.Value := JS.Obj [("name", JS.Str "Vega")].
Definition rigel : JS.Value := JS.Obj [("name", JS.Str "Rigel")].

(** The decoder knows the payloads of the examples and fails elsewhere. *)
Definition known : list JS.Value :=
  [genesisData; starData "addrA" sirius; starData "addrA" vega;
   starData "addrB" rigel].

Definition parse (s : string) : option JS.Value :=
  find (fun v => String.eqb (print v) s) known.

#[export] Instance codec : RecordCodec :=
  {| encode := print; decode := parse |}.

(** Clock readings, in milliseconds. *)
Definition t0 : Z := 1730486400123.
Definition t1 : Z := 1730486460456.

(** A fresh ledger, and the ledger after one and two registered stars. *)
Definition ledger0 : Blockchain := Blockchain_new t0.

Definition ledger1 : Blockchain :=
  fst (_addBlock ledger0 (Block_new (starData "addrA" sirius)) t1).


(** The challenge issued to addrA at [t1]. *)
Definition challengeA : string := "addrA:1730486460:starRegistry".

(** A ledger whose cached height lags behind its chain. *)
Definition staleLedger : Blockchain := mkBlockchain (chain ledger0) (-1).

(** A ledger whose genesis block had its body replaced after sealing. *)
Definition tamperedLedger : Blockchain :=
  match chain ledger0 with
  | g :: rest =>
      mkBlockchain (Block.make (Block.hash g) (Block.height g) "00"
                               (Block.time g) (Block.previousBlockHash g) :: rest)
                   (height ledger0)
  | [] => ledger0
  end.



End Demo.

(** ** Strings without a colon *)

(** Strings that do not hold the character [:], the separator of the
    message of [requestMessageOwnershipVerification]. *)
Fixpoint noColon (s : string) : bool :=
  match s with
  | EmptyString => true
  | String c rest => negb (Ascii.eqb c ":") && noColon rest
  end.

(** ** Basic facts *)

Lemma option_string_eqb_eq (a b : option string) :
  option_string_eqb a b = true <-> a = b.
Proof.
  destruct a as [x|], b as [y|]; simpl; split; intro H;
    try discriminate; try reflexivity.
  - apply String.eqb_eq in H. now subst.
  - injection H as ->. apply String.eqb_refl.
Qed.

Lemma option_string_eqb_refl (a : option string) : option_string_eqb a a = true.
Proof. now apply option_string_eqb_eq. Qed.

Lemma index_of_nat {A : Type} (a : list A) (n : nat) :
  JS.index a (Z.of_nat n) = nth_error a n.
Proof.
  unfold JS.index. destruct (Z.ltb_spec (Z.of_nat n) 0) as [H|H]; [lia|].
  now rewrite Nat2Z.id.
Qed.

Lemma index_negative {A : Type} (a : list A) (i : Z) :
  i < 0 -> JS.index a i = None.
Proof.
  intro H. unfold JS.index. destruct (Z.ltb_spec i 0); [reflexivity | lia].
Qed.

Lemma nth_error_middle {A : Type} (pre : list A) (x : A) (post : list A) :
  nth_error (pre ++ x :: post) (List.length pre) = Some x.
Proof. induction pre as [|y pre IH]; simpl; auto. Qed.

Lemma last_cons_default {A : Type} (x : A) (l : list A) (d d' : A) :
  last (x :: l) d = last (x :: l) d'.
Proof.
  revert x. induction l as [|y l IH]; intro x; [reflexivity|].
  change (last (y :: l) d = last (y :: l) d'). apply IH.
Qed.

Lemma nth_error_last {A : Type} (g : A) (rest : list A) :
  nth_error (g :: rest) (List.length rest) = Some (last rest g).
Proof.
  revert g. induction rest as [|x rest IH]; intro g; [reflexivity|].
  change (nth_error (x :: rest) (List.length rest) = Some (last (x :: rest) g)).
  rewrite IH. destruct rest as [|y rest]; [reflexivity|].
  f_equal. change (last (y :: rest) x = last (y :: rest) g).
  apply last_cons_default.
Qed.

(** ** The clock *)

Lemma isDecimal_uint (e : Decimal.uint) :
  JS.isDecimal (NilEmpty.string_of_uint e) = true.
Proof. induction e; cbn; auto. Qed.

Lemma readDigits_uint (e d : Decimal.uint) :
  JS.readDigits 10 (NilEmpty.string_of_uint e)
    (Some (Z.of_N (Unsigned.of_lu d))) =
  Some (Z.of_N (Unsigned.of_lu (Decimal.revapp e d))).
Proof.
  revert d.
  induction e; intro d; [reflexivity| ..];
    cbn [NilEmpty.string_of_uint JS.readDigits Decimal.revapp];
    match goal with
    | |- context [JS.digitValue ?c] =>
        let v := eval vm_compute in (JS.digitValue c) in
        change (JS.digitValue c) with v
    end;
    cbv iota; match goal with
              | |- context [?k <? 10] => change (k <? 10) with true
              end;
    cbv iota; rewrite <- IHe; do 2 f_equal; cbn [Unsigned.of_lu]; lia.
Qed.

(** A string of decimal digits read from an accumulator. *)
Lemma readDigits_decimal (s : string) :
  JS.isDecimal s = true ->
  exists r, 0 <= r < 10 ^ Z.of_nat (String.length s) /\
            forall a, JS.readDigits 10 s (Some a) =
                      Some (a * 10 ^ Z.of_nat (String.length s) + r).
Proof.
  induction s as [|c s IH]; intro Hd.
  - exists 0. split; [cbn; lia|]. intro a. cbn. f_equal. lia.
  - cbn [JS.isDecimal] in Hd.
    apply andb_prop in Hd as [Hc Hs]. apply andb_prop in Hc as [Hlo Hhi].
    destruct (IH Hs) as (r & Hr & Hread).
    exists ((Z.of_nat (nat_of_ascii c) - 48) * 10 ^ Z.of_nat (String.length s) + r).
    cbn [String.length]. rewrite Nat2Z.inj_succ, Z.pow_succ_r by lia.
    split; [nia|]. intro a. cbn [JS.readDigits]. unfold JS.digitValue.
    rewrite Hlo, Hhi. cbn [andb].
    destruct (Z.ltb_spec (Z.of_nat (nat_of_ascii c) - 48) 10); [|lia].
    rewrite Hread. f_equal. ring.
Qed.

Lemma readDigits_append (s1 s2 : string) (a : Z) :
  JS.isDecimal s1 = true ->
  JS.readDigits 10 (s1 ++ s2) (Some a) =
  JS.readDigits 10 s2 (JS.readDigits 10 s1 (Some a)).
Proof.
  revert a. induction s1 as [|c s1 IH]; intros a Hd; [reflexivity|].
  cbn [JS.isDecimal] in Hd.
  apply andb_prop in Hd as [Hc Hs]. apply andb_prop in Hc as [Hlo Hhi].
  cbn [String.append JS.readDigits]. unfold JS.digitValue.
  rewrite Hlo, Hhi. cbn [andb].
  destruct (Z.ltb_spec (Z.of_nat (nat_of_ascii c) - 48) 10); [|lia].
  now apply IH.
Qed.

Lemma isDecimal_append (s1 s2 : string) :
  JS.isDecimal (s1 ++ s2) = (JS.isDecimal s1 && JS.isDecimal s2)%bool.
Proof.
  induction s1 as [|c s1 IH]; [reflexivity|].
  cbn [String.append JS.isDecimal]. rewrite IH. now rewrite andb_assoc.
Qed.

Lemma string_split (n : nat) (s : string) :
  (n <= String.length s)%nat ->
  s = (substring 0 n s ++ substring n (String.length s - n) s)%string /\
  String.length (substring 0 n s) = n.
Proof.
  revert s. induction n as [|n IH]; intros s Hn.
  - split.
    + rewrite Nat.sub_0_r. destruct s; cbn; [reflexivity|].
      f_equal.
      generalize s. clear. intro s. induction s; cbn; congruence.
    + destruct s; reflexivity.
  - destruct s as [|c s]; [cbn in Hn; lia|].
    cbn [String.length] in Hn. destruct (IH s ltac:(lia)) as [Heq Hlen].
    cbn [substring String.length Nat.sub String.append]. split; [|now f_equal].
    now f_equal.
Qed.

Lemma option_match_id (o : option Z) :
  match o with Some n => Some n | None => None end = o.
Proof. now destruct o. Qed.

(** [parseInt] of a non-empty string of decimal digits reads all of it. *)
Lemma parseIntStr_decimal (s : string) :
  JS.isDecimal s = true -> s <> EmptyString ->
  JS.parseIntStr s = JS.readDigits 10 s (Some 0).
Proof.
  intros Hd Hne. destruct s as [|c s]; [contradiction|]. clear Hne.
  destruct c as [[] [] [] [] [] [] [] []]; simpl in Hd; try discriminate Hd;
    try (unfold JS.parseIntStr; cbn; apply option_match_id).
  destruct s as [|c2 s2]; [reflexivity|].
  destruct c2 as [[] [] [] [] [] [] [] []]; simpl in Hd; try discriminate Hd;
    unfold JS.parseIntStr; cbn; apply option_match_id.
Qed.

Lemma toString_positive (p : positive) :
  JS.toString (Zpos p) = NilEmpty.string_of_uint (Pos.to_uint p).
Proof.
  unfold JS.toString. cbn [Z.to_int NilZero.string_of_int].
  unfold NilZero.string_of_uint.
  destruct (Pos.to_uint p) eqn:E; try reflexivity.
  now apply Unsigned.to_uint_nonnil in E.
Qed.

Lemma readDigits_toString (p : positive) :
  JS.readDigits 10 (JS.toString (Zpos p)) (Some 0) = Some (Zpos p).
Proof.
  rewrite toString_positive.
  change 0 with (Z.of_N (Unsigned.of_lu Decimal.Nil)).
  rewrite readDigits_uint.
  change (Decimal.revapp (Pos.to_uint p) Decimal.Nil)
    with (Decimal.rev (Pos.to_uint p)).
  rewrite <- Unsigned.of_uint_alt, Unsigned.of_to. reflexivity.
Qed.

Lemma length_append (s1 s2 : string) :
  String.length (s1 ++ s2) = (String.length s1 + String.length s2)%nat.
Proof. induction s1; cbn; congruence. Qed.

(** The clock reading of [submitStar] is the epoch second of the clock. *)
Lemma timeNow_seconds (now : Z) :
  1000 <= now -> timeNow now = Some (now / 1000).
Proof.
  intro Hnow. destruct now as [|p|p]; try lia.
  unfold timeNow, epochSeconds, JS.parseInt, JS.slice_0_m3.
  set (s := JS.toString (Z.pos p)).
  assert (Hd : JS.isDecimal s = true).
  { subst s. rewrite toString_positive. apply isDecimal_uint. }
  pose proof (readDigits_toString p) as Hval. fold s in Hval.
  destruct (readDigits_decimal s Hd) as (r & Hr & Hread).
  rewrite Hread in Hval. injection Hval as Hval.
  assert (Hlen : (4 <= String.length s)%nat).
  { destruct (Nat.le_gt_cases 4 (String.length s)) as [H|H]; [exact H|].
    assert (10 ^ Z.of_nat (String.length s) <= 10 ^ 3)
      by (apply Z.pow_le_mono_r; lia).
    lia. }
  destruct (string_split (String.length s - 3) s ltac:(lia)) as [Hsplit Hlen1].
  set (s1 := substring 0 (String.length s - 3) s) in *.
  set (s2 := substring (String.length s - 3)
               (String.length s - (String.length s - 3)) s) in *.
  assert (Hlen2 : String.length s2 = 3%nat).
  { apply (f_equal String.length) in Hsplit. rewrite length_append in Hsplit. lia. }
  assert (Hd12 : JS.isDecimal s1 = true /\ JS.isDecimal s2 = true).
  { rewrite Hsplit, isDecimal_append in Hd. now apply andb_prop in Hd. }
  destruct Hd12 as [Hd1 Hd2].
  destruct (readDigits_decimal s1 Hd1) as (r1 & Hr1 & Hread1).
  destruct (readDigits_decimal s2 Hd2) as (r2 & Hr2 & Hread2).
  rewrite Hlen2 in Hr2, Hread2. change (10 ^ Z.of_nat 3) with 1000 in Hr2, Hread2.
  pose proof (Hread 0) as Hs. rewrite Hsplit in Hs at 1.
  rewrite readDigits_append, Hread1, Hread2 in Hs by exact Hd1.
  injection Hs as Hs.
  rewrite parseIntStr_decimal; [|exact Hd1|].
  - rewrite Hread1, Z.mul_0_l, Z.add_0_l. f_equal.
    apply Z.div_unique with (r := r2); lia.
  - intro E. apply (f_equal String.length) in E. rewrite Hlen1 in E.
    change (String.length EmptyString) with 0%nat in E. lia.
Qed.

Section Validation.

Context {L : Libraries} {C : RecordCodec}.

(** One round of the loop on a block that has a block before it. *)
Lemma checkEntry_with_prev chain index prev block errorLog :
  JS.index chain (index - 1) = Some prev ->
  checkEntry chain index block errorLog =
  Some (errorLog ++ findings_gated prev block).
Proof.
  intro Hprev. unfold checkEntry, findings_gated, bindThrow.
  rewrite Hprev.
  destruct (Block.height block >? 0);
    destruct (Block.height block =? Block.height prev + 1);
    destruct (option_string_eqb (Block.previousBlockHash block) (Block.hash prev));
    destruct (Block_validate block); simpl;
    rewrite ?app_nil_r, <- ?app_assoc; reflexivity.
Qed.

(** One round of the loop on a block whose own height is not above 0: the
    block before it is not read. *)
Lemma checkEntry_low chain index block errorLog :
  Block.height block <= 0 ->
  checkEntry chain index block errorLog = Some (errorLog ++ tamperFinding block).
Proof.
  intro Hlow. unfold checkEntry, tamperFinding, bindThrow.
  destruct (Z.gtb_spec (Block.height block) 0) as [H|H]; [lia|].
  destruct (Block_validate block); now rewrite ?app_nil_r.
Qed.

(** The first round throws when the first block has a height above 0. *)
Lemma checkEntry_first_high chain block errorLog :
  0 < Block.height block ->
  checkEntry chain 0 block errorLog = None.
Proof.
  intro Hhigh. unfold checkEntry, bindThrow.
  destruct (Z.gtb_spec (Block.height block) 0) as [H|H]; [|lia].
  now rewrite index_negative by lia.
Qed.

Lemma validateEntries_from pre prev rest errorLog :
  validateEntries (pre ++ prev :: rest)
    (combine (map Z.of_nat (seq (S (List.length pre)) (List.length rest))) rest)
    errorLog
  = Some (errorLog ++ validateFrom_gated prev rest).
Proof.
  revert pre prev errorLog.
  induction rest as [|block rest IH]; intros pre prev errorLog.
  - simpl. now rewrite app_nil_r.
  - cbn [List.length seq map combine validateEntries validateFrom_gated].
    rewrite checkEntry_with_prev with (prev := prev).
    + unfold bindThrow.
      specialize (IH (pre ++ [prev]) block (errorLog ++ findings_gated prev block)).
      rewrite <- app_assoc in IH. cbn [app] in IH.
      rewrite length_app in IH. cbn [List.length] in IH.
      rewrite Nat.add_1_r in IH. rewrite IH. now rewrite app_assoc.
    + replace (Z.of_nat (S (List.length pre)) - 1) with (Z.of_nat (List.length pre)) by lia.
      rewrite index_of_nat. apply nth_error_middle.
Qed.

(** The loop of [validateChain] over a chain whose first block has a height
    that is not above 0 ends and yields the gated findings. *)
Lemma validateEntries_gated first rest :
  Block.height first <= 0 ->
  validateEntries (first :: rest) (entries (first :: rest)) [] =
  Some (validateChain_gated (first :: rest)).
Proof.
  intro Hlow. unfold entries.
  cbn [List.length seq map combine validateEntries].
  rewrite checkEntry_low by exact Hlow. unfold bindThrow. cbn [app].
  apply (validateEntries_from [] first rest).
Qed.

Lemma validateChain_gated_eq self :
  match chain self with
  | [] => True
  | first :: _ => Block.height first <= 0
  end ->
  validateChain self = (self, Fulfilled (validateChain_gated (chain self))).
Proof.
  unfold validateChain. destruct (chain self) as [|first rest] eqn:E.
  - reflexivity.
  - intro Hlow. now rewrite validateEntries_gated.
Qed.

Lemma validateChain_first_high self first rest :
  chain self = first :: rest -> 0 < Block.height first ->
  validateChain self = (self, Pending).
Proof.
  intros E Hhigh. unfold validateChain, entries. rewrite E.
  cbn [List.length seq map combine validateEntries].
  change (Z.of_nat 0) with 0.
  now rewrite checkEntry_first_high.
Qed.

Lemma validateChain_frame self : fst (validateChain self) = self.
Proof.
  unfold validateChain.
  now destruct (validateEntries (chain self) (entries (chain self)) []).
Qed.

End Validation.

(** ** Sealing and appending *)

Section Appending.

Context {L : Libraries} {C : RecordCodec}.

Lemma addBlock_sealed self block now sealed :
  sealBlock (chain self) (height self + 1) block now = Some sealed ->
  _addBlock self block now =
  (mkBlockchain (chain self ++ [sealed]) (height self + 1),
   afterValidation (mkBlockchain (chain self ++ [sealed]) (height self + 1))
     sealed (afterHeightCheck self)).
Proof.
  intro Hseal. unfold _addBlock, afterValidation, afterHeightCheck.
  cbn [chain height]. rewrite Hseal.
  unfold validateChain. cbn [chain].
  destruct (validateEntries _ _ _); reflexivity.
Qed.

Lemma addBlock_thrown self block now :
  sealBlock (chain self) (height self + 1) block now = None ->
  _addBlock self block now =
  (mkBlockchain (chain self) (height self + 1), afterHeightCheck self).
Proof.
  intro Hseal. unfold _addBlock, afterHeightCheck. cbn [chain height].
  now rewrite Hseal.
Qed.

Lemma sealBlock_low chain h block now :
  h <= 0 -> sealBlock chain h block now = Some (sealedAfter None h block now).
Proof.
  intro Hlow. unfold sealBlock, sealedAfter, bindThrow.
  destruct (Z.gtb_spec h 0); [lia | reflexivity].
Qed.

Lemma sealBlock_high chain h block now prev :
  0 < h -> JS.index chain (h - 1) = Some prev ->
  sealBlock chain h block now = Some (sealedAfter (Some prev) h block now).
Proof.
  intros Hhigh Hprev. unfold sealBlock, sealedAfter, bindThrow.
  destruct (Z.gtb_spec h 0); [|lia]. now rewrite Hprev.
Qed.

(** When the height check passes, sealing does not throw. *)
Lemma sealBlock_checked self block now :
  Z.of_nat (List.length (chain self)) - height self = 1 ->
  exists prev,
    sealBlock (chain self) (height self + 1) block now =
    Some (sealedAfter prev (height self + 1) block now) /\
    (prev = None <-> height self + 1 <= 0).
Proof.
  intro Hcheck.
  destruct (Z.leb_spec (height self + 1) 0) as [Hlow|Hhigh].
  - exists None. split; [now apply sealBlock_low | tauto].
  - destruct (nth_error (chain self) (Z.to_nat (height self))) as [prev|] eqn:E.
    + exists (Some prev). split.
      * apply sealBlock_high; [exact Hhigh|].
        replace (height self + 1 - 1) with (Z.of_nat (Z.to_nat (height self))) by lia.
        now rewrite index_of_nat.
      * split; [discriminate | lia].
    + apply nth_error_None in E. lia.
Qed.

Lemma sealedAfter_fields prev h block now :
  let sealed := sealedAfter prev h block now in
  Block.height sealed = h /\
  Block.body sealed = Block.body block /\
  Block.time sealed = epochSeconds now /\
  Block.previousBlockHash sealed =
    match prev with
    | Some p => Block.hash p
    | None => Block.previousBlockHash block
    end /\
  Block.hash sealed =
    Some (SHA256 (JSON_stringify (Block.set_hash (Block.hash block) sealed))).
Proof.
  destruct block as [hs ht bd tm pv], prev as [p|]; cbn; repeat split.
Qed.

(** A new block sealed by [_addBlock] passes [validate]. *)
Lemma sealedAfter_new_valid prev h data now :
  Block_validate (sealedAfter prev h (Block_new data) now) = true.
Proof.
  unfold Block_validate, contentHash.
  destruct prev as [p|]; cbn; apply String.eqb_refl.
Qed.

(** A failed height check settles the promise for good; the executor goes
    on and advances the cached height. *)
Lemma addBlock_mismatch self block now :
  Z.of_nat (List.length (chain self)) - height self <> 1 ->
  snd (_addBlock self block now) = Rejected BlockHeightDiscrepancy /\
  height (fst (_addBlock self block now)) = height self + 1.
Proof.
  intro Hbad.
  assert (Hp : afterHeightCheck self = Rejected BlockHeightDiscrepancy).
  { unfold afterHeightCheck.
    destruct (Z.eqb_spec (Z.of_nat (List.length (chain self)) - height self) 1);
      [contradiction | reflexivity]. }
  destruct (sealBlock (chain self) (height self + 1) block now) as [sealed|] eqn:E.
  - rewrite (addBlock_sealed _ _ _ _ E). cbn [fst snd height]. split; [|reflexivity].
    unfold afterValidation. rewrite Hp.
    destruct (snd (validateChain _)) as [|errs|e]; try reflexivity.
    destruct (0 <? Z.of_nat (List.length errs)); reflexivity.
  - rewrite (addBlock_thrown _ _ _ E). cbn [fst snd height]. now split.
Qed.

Lemma afterHeightCheck_pass self :
  Z.of_nat (List.length (chain self)) - height self = 1 ->
  afterHeightCheck self = Pending.
Proof.
  intro H. unfold afterHeightCheck. rewrite H. reflexivity.
Qed.

End Appending.

(** ** The invariant holds in every reachable ledger *)

Section Soundness.

Context {L : Libraries} {C : RecordCodec}.

Lemma findings_gated_follows prev block :
  follows prev block -> Block_validate block = true ->
  findings_gated prev block = [].
Proof.
  intros [Hh Hp] Hv. unfold findings_gated.
  rewrite Hv, Hh, Z.eqb_refl, Hp, option_string_eqb_refl.
  now destruct (_ >? _).
Qed.

Lemma linkedFrom_no_findings prev rest :
  linkedFrom prev rest -> validateFrom_gated prev rest = [].
Proof.
  revert prev. induction rest as [|block rest IH]; intros prev H; [reflexivity|].
  destruct H as (Hf & Hv & Hrest). cbn [validateFrom_gated].
  now rewrite findings_gated_follows, IH.
Qed.

Lemma linkedFrom_snoc prev rest block :
  linkedFrom prev rest -> follows (last rest prev) block ->
  Block_validate block = true -> linkedFrom prev (rest ++ [block]).
Proof.
  revert prev. induction rest as [|x rest IH]; intros prev Hl Hf Hv.
  - cbn. auto.
  - destruct Hl as (Hfx & Hvx & Hrest). cbn [app linkedFrom].
    split; [exact Hfx|]. split; [exact Hvx|].
    apply IH; try assumption.
    destruct rest as [|y rest]; [exact Hf|].
    change (follows (last (y :: rest) prev) block) in Hf.
    now rewrite (last_cons_default y rest x prev).
Qed.

Lemma linkedFrom_last_height prev rest :
  linkedFrom prev rest ->
  Block.height (last rest prev) = Block.height prev + Z.of_nat (List.length rest).
Proof.
  revert prev. induction rest as [|x rest IH]; intros prev Hl.
  - cbn. lia.
  - destruct Hl as ((Hh & _) & _ & Hrest).
    specialize (IH x Hrest).
    replace (last (x :: rest) prev) with (last rest x).
    + rewrite IH, Hh. cbn [List.length]. lia.
    + destruct rest as [|y rest]; [reflexivity|].
      change (last (y :: rest) x = last (y :: rest) prev).
      apply last_cons_default.
Qed.

Lemma linkedFrom_nth g rest i p b :
  linkedFrom g rest ->
  nth_error (g :: rest) i = Some p -> nth_error (g :: rest) (S i) = Some b ->
  follows p b.
Proof.
  revert g i. induction rest as [|x rest IH]; intros g i Hl Hp Hb.
  - destruct i; discriminate.
  - destruct Hl as (Hf & _ & Hrest). destruct i as [|i].
    + cbn in Hp, Hb. injection Hp as <-. injection Hb as <-. exact Hf.
    + exact (IH x i Hrest Hp Hb).
Qed.

(** A sound ledger validates without findings. *)
Lemma sound_validateChain self :
  sound self -> validateChain self = (self, Fulfilled []).
Proof.
  intros (g & rest & Hc & (Hg & _) & Hv & Hl & _).
  rewrite validateChain_gated_eq; rewrite Hc; [|lia].
  unfold validateChain_gated. rewrite Hv.
  now rewrite linkedFrom_no_findings.
Qed.

(** [_addBlock] of a new block on a sound ledger: the block is sealed after
    the last one, pushed, and the promise resolves with it. *)
Lemma sound_addBlock self data now :
  sound self ->
  exists prev,
    nth_error (chain self) (List.length (chain self) - 1) = Some prev /\
    let sealed := sealedAfter (Some prev) (height self + 1) (Block_new data) now in
    let self' := mkBlockchain (chain self ++ [sealed]) (height self + 1) in
    _addBlock self (Block_new data) now = (self', Fulfilled sealed) /\
    sound self'.
Proof.
  intros (g & rest & Hc & Hg & Hv & Hl & Hh).
  exists (last rest g). split.
  { rewrite Hc. cbn [List.length Nat.sub]. rewrite Nat.sub_0_r.
    apply nth_error_last. }
  intros sealed self'.
  assert (Hsound : sound self').
  { exists g, (rest ++ [sealed]). subst self'. cbn [chain height].
    rewrite Hc. split; [reflexivity|]. split; [exact Hg|].
    split; [exact Hv|]. split.
    - apply linkedFrom_snoc; [assumption| |apply sealedAfter_new_valid].
      destruct (sealedAfter_fields (Some (last rest g)) (height self + 1)
                  (Block_new data) now) as (Hsh & _ & _ & Hsp & _).
      fold sealed in Hsh, Hsp. split; [|exact Hsp].
      rewrite Hsh, (linkedFrom_last_height _ _ Hl).
      destruct Hg as (Hg0 & _). lia.
    - rewrite length_app. cbn [List.length]. lia. }
  split; [|exact Hsound].
  assert (Hseal : sealBlock (chain self) (height self + 1) (Block_new data) now
                  = Some sealed).
  { apply sealBlock_high; [lia|].
    replace (height self + 1 - 1) with (Z.of_nat (List.length rest)) by lia.
    rewrite index_of_nat, Hc. apply nth_error_last. }
  rewrite (addBlock_sealed _ _ _ _ Hseal). fold self'.
  unfold afterValidation. rewrite (sound_validateChain _ Hsound). cbn [snd List.length].
  rewrite afterHeightCheck_pass; [reflexivity|].
  rewrite Hc, Hh. cbn [List.length]. lia.
Qed.

(** The ledger of the constructor. *)
Lemma Blockchain_new_eq now :
  Blockchain_new now =
  mkBlockchain [sealedAfter None 0 (Block_new genesisData) now] 0.
Proof.
  unfold Blockchain_new, initializeChain. cbn [height Z.eqb].
  assert (Hseal : sealBlock (chain (mkBlockchain [] (-1)))
                    (height (mkBlockchain [] (-1)) + 1)
                    (Block_new genesisData) now
                  = Some (sealedAfter None 0 (Block_new genesisData) now)).
  { apply sealBlock_low. cbn. lia. }
  rewrite (addBlock_sealed _ _ _ _ Hseal). reflexivity.
Qed.

Lemma sound_new now : sound (Blockchain_new now).
Proof.
  rewrite Blockchain_new_eq.
  exists (sealedAfter None 0 (Block_new genesisData) now), [].
  repeat split. apply sealedAfter_new_valid.
Qed.

Lemma reachable_sound self : reachable self -> sound self.
Proof.
  induction 1 as [now | self data now self' block _ IH Hadd].
  - apply sound_new.
  - destruct (sound_addBlock self data now IH) as (prev & _ & Heq & Hs).
    rewrite Heq in Hadd. injection Hadd as <- _. exact Hs.
Qed.

End Soundness.

(** ** The ownership protocol: submitStar *)

Section Submission.

Context {L : Libraries} {C : RecordCodec}.

Lemma withinTimelock_lt now message tn tm :
  timeNow now = Some tn -> messageTime message = Some tm ->
  withinTimelock (timeNow now) (messageTime message) = (tn - tm <? 300).
Proof. intros -> ->. reflexivity. Qed.



(** C4. A submission whose challenge carries a time 300 seconds or more
    before the clock reading is rejected with the rejection the class uses
    for an expired challenge ('Error: Timed out or not verified.'), whatever
    the signature is; [bitcoinMessage.verify] is not called and the ledger
    is as before. *)
Theorem submitStar_expired self address message signature star now sealNow tn tm :
  timeNow now = Some tn ->
  messageTime message = Some tm ->
  300 <= tn - tm ->
  submitStar self address message signature star now sealNow =
  mkSubmitted self (Rejected TimedOutOrNotVerified) [].
Proof.
  intros Hn Hm Hge. unfold submitStar; cbv zeta.
  rewrite (withinTimelock_lt now message tn tm Hn Hm).
  destruct (Z.ltb_spec (tn - tm) 300); [lia | reflexivity].
Qed.


End Submission.

(** ** The chain of a reachable ledger *)

Section Linkage.

Context {L : Libraries} {C : RecordCodec}.

(** C7. In every ledger reached by the constructor and resolved appends,
    the chain has a first block, which is the genesis block: no previous
    hash, height 0, the genesis payload; every later block carries the hash
    of the block before it as its previous hash and that block's height
    plus one as its height; and right after construction [getChainHeight]
    resolves with 0. *)
Theorem reachable_chain_linked self :
  reachable self ->
  (exists g, nth_error (chain self) 0 = Some g /\
             Block.previousBlockHash g = None /\
             Block.height g = 0 /\
             Block.body g = encode genesisData) /\
  (forall i p b,
      nth_error (chain self) i = Some p ->
      nth_error (chain self) (S i) = Some b ->
      Block.previousBlockHash b = Block.hash p /\
      Block.height b = Block.height p + 1) /\
  (forall now,
      getChainHeight (Blockchain_new now) = (Blockchain_new now, Fulfilled 0)).
Proof.
  intro Hr. apply reachable_sound in Hr.
  destruct Hr as (g & rest & Hc & (Hg0 & Hgp & Hgb) & _ & Hl & _).
  split; [|split].
  - exists g. rewrite Hc. repeat split; assumption.
  - intros i p b Hp Hb. rewrite Hc in Hp, Hb.
    destruct (linkedFrom_nth g rest i p b Hl Hp Hb) as [Hh Hpv]. now split.
  - intro now. rewrite Blockchain_new_eq. reflexivity.
Qed.

End Linkage.

(** ** Appending: the height check, validation after the push, the hash *)

Section AppendClaims.

Context {L : Libraries} {C : RecordCodec}.

(** C6. When the height check passes and the validation that [_addBlock]
    runs after the push finds errors, the promise is rejected with that
    list of errors, whole, and the pushed block stays in the chain: the
    chain is the old one followed by the sealed block and the cached height
    is advanced. *)
Theorem addBlock_validation_failed self block now errs :
  Z.of_nat (List.length (chain self)) - height self = 1 ->
  snd (validateChain (fst (_addBlock self block now))) = Fulfilled errs ->
  errs <> [] ->
  snd (_addBlock self block now) = Rejected (ValidationErrors errs) /\
  exists sealed,
    chain (fst (_addBlock self block now)) = chain self ++ [sealed] /\
    Block.body sealed = Block.body block /\
    height (fst (_addBlock self block now)) = height self + 1.
Proof.
  intros Hcheck Hval Hne.
  destruct (sealBlock_checked self block now Hcheck) as (prev & Hseal & _).
  rewrite (addBlock_sealed _ _ _ _ Hseal) in *. cbn [fst snd] in *.
  split.
  - unfold afterValidation. rewrite Hval.
    rewrite (afterHeightCheck_pass _ Hcheck).
    destruct errs as [|e errs]; [contradiction | reflexivity].
  - eexists. cbn [chain height]. split; [reflexivity|]. split; [|reflexivity].
    apply (sealedAfter_fields prev (height self + 1) block now).
Qed.

Lemma addBlock_extends self block now :
  exists ext, chain (fst (_addBlock self block now)) = chain self ++ ext.
Proof.
  destruct (sealBlock (chain self) (height self + 1) block now) as [sealed|] eqn:E.
  - rewrite (addBlock_sealed _ _ _ _ E). now exists [sealed].
  - rewrite (addBlock_thrown _ _ _ E). exists []. cbn. now rewrite app_nil_r.
Qed.

Lemma firstMatch_frame f self : fst (firstMatch f self) = self.
Proof. unfold firstMatch. now destruct (nth_error _ 0). Qed.

(** Every call leaves the blocks already in the chain where they are. *)
Lemma ledgerAfter_extends call self :
  exists ext, chain (ledgerAfter call self) = chain self ++ ext.
Proof.
  assert (Hsame : exists ext, chain self = chain self ++ ext)
    by (exists []; now rewrite app_nil_r).
  destruct call; cbn [ledgerAfter]; try exact Hsame.
  - unfold initializeChain. destruct (height self =? -1); [|exact Hsame].
    apply addBlock_extends.
  - apply addBlock_extends.
  - unfold submitStar; cbv zeta.
    destruct (withinTimelock _ _); [|exact Hsame].
    destruct (verify _ _ _); [|exact Hsame].
    destruct (addBlock_extends self (Block_new (starData address star)) sealNow)
      as [ext Hext].
    destruct (_addBlock self (Block_new (starData address star)) sealNow)
      as [self' [|b|e]]; cbn [ledger fst] in *; now exists ext.
  - unfold getBlockByHash. now rewrite firstMatch_frame.
  - unfold getBlockByHeight. now rewrite firstMatch_frame.
  - now rewrite validateChain_frame.
Qed.

(** C9. Whenever [_addBlock] appends a block sealed from a new block, the
    hash it stored is the SHA256 digest of the JSON text of the block with
    its height, body, time and previous hash set and its hash field still
    [null]: a function of those four fields and not of the hash; and when
    the height check passes such a block is appended. No call computes the
    hash again: whatever a client calls, a block that is in the chain stays
    in its place as it is, hash included. *)
Theorem sealed_hash_is_content_hash self data now :
  Z.of_nat (List.length (chain self)) - height self = 1 ->
  (exists sealed,
      chain (fst (_addBlock self (Block_new data) now)) = chain self ++ [sealed] /\
      Block.height sealed = height self + 1 /\
      Block.body sealed = encode data /\
      Block.time sealed = epochSeconds now) /\
  (forall ledger0 data0 now0 sealed,
      chain (fst (_addBlock ledger0 (Block_new data0) now0)) =
        chain ledger0 ++ [sealed] ->
      Block.hash sealed =
        Some (SHA256 (JSON_stringify
                (Block.make None (Block.height sealed) (Block.body sealed)
                            (Block.time sealed) (Block.previousBlockHash sealed))))) /\
  (forall ledger0 call i b,
      nth_error (chain ledger0) i = Some b ->
      nth_error (chain (ledgerAfter call ledger0)) i = Some b).
Proof.
  intro Hcheck. split; [|split].
  - destruct (sealBlock_checked self (Block_new data) now Hcheck)
      as (prev & Hseal & _).
    rewrite (addBlock_sealed _ _ _ _ Hseal). cbn [fst chain].
    eexists. split; [reflexivity|].
    destruct prev as [p|]; cbn; repeat split.
  - intros ledger0 data0 now0 sealed.
    destruct (sealBlock (chain ledger0) (height ledger0 + 1) (Block_new data0) now0)
      as [x|] eqn:E.
    + rewrite (addBlock_sealed _ _ _ _ E). cbn [fst chain].
      intro H. apply app_inv_head in H. injection H as <-.
      unfold sealBlock, bindThrow in E.
      destruct (height ledger0 + 1 >? 0);
        [destruct (JS.index (chain ledger0) (height ledger0 + 1 - 1)) as [p|];
         [|discriminate]|];
        injection E as <-; reflexivity.
    + rewrite (addBlock_thrown _ _ _ E). cbn [fst chain].
      intro H. apply (f_equal (@List.length Block)) in H.
      rewrite length_app in H. cbn in H. lia.
  - intros ledger0 call i b Hb.
    destruct (ledgerAfter_extends call ledger0) as [ext ->].
    rewrite nth_error_app1; [exact Hb|].
    apply nth_error_Some. congruence.
Qed.

End AppendClaims.

(** ** Lookups *)

Section Lookups.

Context {L : Libraries} {C : RecordCodec}.

Lemma filter_first_some {A : Type} (f : A -> bool) (l : list A) (b : A) :
  nth_error (filter f l) 0 = Some b <->
  exists pre post,
    l = pre ++ b :: post /\ f b = true /\ forall x, In x pre -> f x = false.
Proof.
  split.
  - induction l as [|a l IH]; cbn [filter]; [discriminate|].
    destruct (f a) eqn:Fa.
    + cbn. intros [= <-]. exists [], l. repeat split; [exact Fa|]. intros x [].
    + intro H. destruct (IH H) as (pre & post & -> & Fb & Hpre).
      exists (a :: pre), post. repeat split; [exact Fb|].
      intros x [<-|Hx]; [exact Fa | now apply Hpre].
  - intros (pre & post & -> & Fb & Hpre).
    induction pre as [|a pre IH]; cbn [app filter].
    + now rewrite Fb.
    + rewrite (Hpre a (or_introl eq_refl)). apply IH.
      intros x Hx. apply Hpre. now right.
Qed.

Lemma filter_first_none {A : Type} (f : A -> bool) (l : list A) :
  nth_error (filter f l) 0 = None <-> forall x, In x l -> f x = false.
Proof.
  induction l as [|a l IH]; cbn [filter].
  - split; [intros _ x [] | reflexivity].
  - destruct (f a) eqn:Fa.
    + split; [discriminate|]. intro H. specialize (H a (or_introl eq_refl)).
      congruence.
    + rewrite IH. split.
      * intros H x [<-|Hx]; [exact Fa | now apply H].
      * intros H x Hx. apply H. now right.
Qed.

Lemma firstMatch_spec (f : Block -> bool) self :
  fst (firstMatch f self) = self /\
  (forall b, snd (firstMatch f self) = Fulfilled b <->
     exists pre post,
       chain self = pre ++ b :: post /\ f b = true /\
       forall x, In x pre -> f x = false) /\
  (snd (firstMatch f self) = Rejected NotFound <->
     forall x, In x (chain self) -> f x = false) /\
  snd (firstMatch f self) <> Pending.
Proof.
  split; [apply firstMatch_frame|].
  pose proof (filter_first_some f (chain self)) as Hsome.
  pose proof (filter_first_none f (chain self)) as Hnone.
  unfold firstMatch.
  destruct (nth_error (filter f (chain self)) 0) as [b0|]; cbn [snd resolve reject].
  - repeat split; try discriminate.
    + intros [= <-]. now apply Hsome.
    + intro H. apply Hsome in H. congruence.
    + intro H. apply Hnone in H. discriminate.
  - repeat split; try discriminate; try reflexivity.
    + intro H. apply Hsome in H. discriminate.
    + intros _. now apply Hnone.
Qed.

(** C10. [getBlockByHash] resolves with the first block of the chain, in
    chain order, whose stored hash is the argument, and [getBlockByHeight]
    with the first block whose stored height is the argument, wherever in
    the array that block sits; when no block has that hash or height, the
    promise is rejected ([reject(false)]); the promise always settles, and
    the ledger after either call is the ledger before it. *)
Theorem lookups_first_match self :
  (forall hash,
      fst (getBlockByHash self hash) = self /\
      (forall b, snd (getBlockByHash self hash) = Fulfilled b <->
         exists pre post,
           chain self = pre ++ b :: post /\ Block.hash b = Some hash /\
           forall x, In x pre -> Block.hash x <> Some hash) /\
      (snd (getBlockByHash self hash) = Rejected NotFound <->
         forall x, In x (chain self) -> Block.hash x <> Some hash) /\
      snd (getBlockByHash self hash) <> Pending) /\
  (forall n,
      fst (getBlockByHeight self n) = self /\
      (forall b, snd (getBlockByHeight self n) = Fulfilled b <->
         exists pre post,
           chain self = pre ++ b :: post /\ Block.height b = n /\
           forall x, In x pre -> Block.height x <> n) /\
      (snd (getBlockByHeight self n) = Rejected NotFound <->
         forall x, In x (chain self) -> Block.height x <> n) /\
      snd (getBlockByHeight self n) <> Pending).
Proof.
  assert (Hhash : forall hash x,
             option_string_eqb (Block.hash x) (Some hash) = false <->
             Block.hash x <> Some hash).
  { intros hash x. rewrite <- option_string_eqb_eq.
    destruct (option_string_eqb _ _); split; congruence. }
  assert (Hheight : forall n x, (Block.height x =? n) = false <-> Block.height x <> n).
  { intros n x. apply Z.eqb_neq. }
  split.
  - intro hash. unfold getBlockByHash.
    destruct (firstMatch_spec
                (fun b => option_string_eqb (Block.hash b) (Some hash)) self)
      as (Hf & Hs & Hn & Hp).
    split; [exact Hf|]. split; [|split; [|exact Hp]].
    + intro b. rewrite Hs. split; intros (pre & post & Hc & Hb & Hpre);
        exists pre, post; (split; [exact Hc|]); split.
      * now apply option_string_eqb_eq.
      * intros x Hx. now apply Hhash, Hpre.
      * now apply option_string_eqb_eq.
      * intros x Hx. now apply Hhash, Hpre.
    + rewrite Hn. split; intros H x Hx; now apply Hhash, H.
  - intro n. unfold getBlockByHeight.
    destruct (firstMatch_spec (fun block => Block.height block =? n) self)
      as (Hf & Hs & Hn & Hp).
    split; [exact Hf|]. split; [|split; [|exact Hp]].
    + intro b. rewrite Hs. split; intros (pre & post & Hc & Hb & Hpre);
        exists pre, post; (split; [exact Hc|]); split.
      * now apply Z.eqb_eq.
      * intros x Hx. now apply Hheight, Hpre.
      * now apply Z.eqb_eq.
      * intros x Hx. now apply Hheight, Hpre.
    + rewrite Hn. split; intros H x Hx; now apply Hheight, H.
Qed.

End Lookups.

(** ** Validation of the whole chain *)

Section ValidationClaims.

Context {L : Libraries} {C : RecordCodec}.


Lemma validateFrom_gated_spec prev rest :
  Forall (fun block => 0 < Block.height block) rest ->
  validateFrom_gated prev rest = validateFrom_spec prev rest.
Proof.
  intro Hpos. revert prev.
  induction Hpos as [|block rest Hb _ IH]; intro prev; [reflexivity|].
  cbn [validateFrom_gated validateFrom_spec]. rewrite IH. f_equal.
  unfold findings_gated, findings_spec.
  destruct (Z.gtb_spec (Block.height block) 0); [|lia].
  now rewrite <- app_assoc.
Qed.

(** Where the gate of the code and the index of the specification agree:
    the first block passes [validate] and every later block has a height
    above 0. *)
Lemma gated_agrees_with_spec first rest :
  Block_validate first = true ->
  Forall (fun block => 0 < Block.height block) rest ->
  validateChain_gated (first :: rest) = validateChain_spec (first :: rest).
Proof.
  intros Hv Hpos. cbn [validateChain_gated validateChain_spec]. rewrite Hv.
  cbn [app]. now apply validateFrom_gated_spec.
Qed.

End ValidationClaims.

(** ** The stars of a wallet address *)

Section Stars.

Context {L : Libraries} {C : RecordCodec}.

Lemma forEach_suspends blocks acc :
  fold_left startCallback blocks (mkStarsRun [] acc Pending) =
  mkStarsRun [] (acc ++ map Block_getBData blocks) Pending.
Proof.
  revert acc. induction blocks as [|b blocks IH]; intro acc; cbn [fold_left map].
  - now rewrite app_nil_r.
  - unfold startCallback at 2. cbn [stars suspended returned].
    rewrite IH, <- app_assoc. reflexivity.
Qed.

(** When the promise is resolved no callback has gone past its [await]:
    the array is empty and one callback per block is waiting. *)
Lemma getStars_resolves_first self address :
  getStarsByWalletAddress self address =
  (self, mkStarsRun [] (map Block_getBData (chain self)) (Fulfilled starsRef)).
Proof.
  unfold getStarsByWalletAddress. now rewrite forEach_suspends.
Qed.

Lemma owner_is_truthy body address :
  JS.prop_is_string "owner" body address = true -> JS.truthy body = true.
Proof. destruct body; cbn; congruence. Qed.

Lemma resumeCallback_spec address star acc :
  resumeCallback address (Block_getBData star) acc =
  acc ++ payloadsByOwner_spec [star] address.
Proof.
  unfold resumeCallback, Block_getBData, payloadsByOwner_spec.
  cbn [flat_map]. rewrite app_nil_r.
  destruct (Block.height star =? 0); [now rewrite app_nil_r|].
  destruct (decode (Block.body star)) as [body|]; [|now rewrite app_nil_r].
  destruct (JS.prop_is_string "owner" body address) eqn:E.
  - now rewrite (owner_is_truthy _ _ E).
  - rewrite andb_false_r. now rewrite app_nil_r.
Qed.

Lemma payloadsByOwner_spec_app l1 l2 address :
  payloadsByOwner_spec (l1 ++ l2) address =
  payloadsByOwner_spec l1 address ++ payloadsByOwner_spec l2 address.
Proof. unfold payloadsByOwner_spec. apply flat_map_app. Qed.

(** After the oldest [n] callbacks have run to their end the array holds
    the payloads of the owner among the first [n] blocks. *)
Lemma runCallbacks_prefix address n acc todo p :
  runCallbacks address n (mkStarsRun acc (map Block_getBData todo) p) =
  mkStarsRun (acc ++ payloadsByOwner_spec (firstn n todo) address)
             (map Block_getBData (skipn n todo)) p.
Proof.
  revert acc todo. induction n as [|n IH]; intros acc todo.
  - cbn. now rewrite app_nil_r.
  - destruct todo as [|star rest].
    + cbn. now rewrite app_nil_r.
    + cbn [runCallbacks suspended stars returned firstn skipn map].
      rewrite IH, resumeCallback_spec, <- app_assoc.
      now rewrite <- payloadsByOwner_spec_app.
Qed.

(** Once every callback has run, the array holds what the specification
    asks for. *)
Lemma getStars_after_all_callbacks self address :
  starsSeen (runCallbacks address (List.length (chain self))
               (snd (getStarsByWalletAddress self address)))
  = Some (payloadsByOwner_spec (chain self) address).
Proof.
  rewrite getStars_resolves_first. cbn [snd].
  rewrite runCallbacks_prefix, firstn_all. reflexivity.
Qed.

End Stars.

(** ** The statements on the concrete instance *)

Module Examples.

Import Demo.

Lemma ledger0_reachable : reachable ledger0.
Proof. apply reach_new. Qed.

Lemma ledger1_reachable : reachable ledger1.
Proof.
  apply (reach_append ledger0 (starData "addrA" sirius) t1 ledger1
           (sealedAfter (nth_error (chain ledger0) 0) 1
              (Block_new (starData "addrA" sirius)) t1)).
  - apply ledger0_reachable.
  - vm_compute. reflexivity.
Qed.


(** C4 at the fresh ledger: the same submission, five minutes later. *)
Lemma submitStar_expired_witness :
  timeNow (t1 + 300000) = Some 1730486760 /\
  messageTime challengeA = Some 1730486460 /\
  300 <= 1730486760 - 1730486460 /\
  submitStar ledger0 "addrA" challengeA (sign "addrA" challengeA) sirius
    (t1 + 300000) (t1 + 300000) =
  mkSubmitted ledger0 (Rejected TimedOutOrNotVerified) [].
Proof.
  assert (Hn : timeNow (t1 + 300000) = Some 1730486760) by reflexivity.
  assert (Hm : messageTime challengeA = Some 1730486460) by reflexivity.
  assert (Hge : 300 <= 1730486760 - 1730486460) by lia.
  repeat (split; [assumption|]).
  exact (submitStar_expired ledger0 "addrA" challengeA (sign "addrA" challengeA)
           sirius (t1 + 300000) (t1 + 300000) 1730486760 1730486460 Hn Hm Hge).
Defined.


(** C7 at the ledger that holds one star. *)
Lemma reachable_chain_linked_witness :
  reachable ledger1 /\
  forall i p b,
    nth_error (chain ledger1) i = Some p ->
    nth_error (chain ledger1) (S i) = Some b ->
    Block.previousBlockHash b = Block.hash p /\
    Block.height b = Block.height p + 1.
Proof.
  assert (Hr : reachable ledger1) by apply ledger1_reachable.
  split; [exact Hr|].
  exact (proj1 (proj2 (reachable_chain_linked ledger1 Hr))).
Defined.

(** C6 at the ledger whose genesis block was altered: the append passes the
    height check, the validation after the push reports the altered block. *)
Lemma addBlock_validation_failed_witness :
  Z.of_nat (List.length (chain tamperedLedger)) - height tamperedLedger = 1 /\
  snd (validateChain
         (fst (_addBlock tamperedLedger (Block_new (starData "addrA" sirius)) t1)))
  = Fulfilled [CurrentHashDiscrepancy 0] /\
  [CurrentHashDiscrepancy 0] <> [] /\
  snd (_addBlock tamperedLedger (Block_new (starData "addrA" sirius)) t1) =
  Rejected (ValidationErrors [CurrentHashDiscrepancy 0]).
Proof.
  assert (Hc : Z.of_nat (List.length (chain tamperedLedger))
               - height tamperedLedger = 1) by reflexivity.
  assert (Hv : snd (validateChain
                      (fst (_addBlock tamperedLedger
                              (Block_new (starData "addrA" sirius)) t1)))
               = Fulfilled [CurrentHashDiscrepancy 0])
    by (vm_compute; reflexivity).
  assert (Hne : [CurrentHashDiscrepancy 0] <> []) by discriminate.
  repeat (split; [assumption|]).
  exact (proj1 (addBlock_validation_failed tamperedLedger
                  (Block_new (starData "addrA" sirius)) t1
                  [CurrentHashDiscrepancy 0] Hc Hv Hne)).
Defined.

(** C9 at the fresh ledger. *)
Lemma sealed_hash_is_content_hash_witness :
  Z.of_nat (List.length (chain ledger0)) - height ledger0 = 1 /\
  exists sealed,
    chain (fst (_addBlock ledger0 (Block_new (starData "addrA" sirius)) t1)) =
    chain ledger0 ++ [sealed] /\
    Block.hash sealed =
      Some (SHA256 (JSON_stringify
              (Block.make None (Block.height sealed) (Block.body sealed)
                          (Block.time sealed) (Block.previousBlockHash sealed)))).
Proof.
  assert (Hc : Z.of_nat (List.length (chain ledger0)) - height ledger0 = 1)
    by reflexivity.
  split; [exact Hc|].
  destruct (sealed_hash_is_content_hash ledger0 (starData "addrA" sirius) t1 Hc)
    as ((sealed & Hchain & _) & Hhash & _).
  exists sealed. split; [exact Hchain|].
  exact (Hhash ledger0 (starData "addrA" sirius) t1 sealed Hchain).
Defined.



(** C2, the defect: on a ledger whose cached height lags behind its chain
    [_addBlock] rejects with 'Block height discrepancy!' and still advances
    the cached height and pushes the block. *)
Theorem addBlock_mismatch_still_appends :
  Z.of_nat (List.length (chain staleLedger)) <> height staleLedger + 1 /\
  snd (_addBlock staleLedger (Block_new (starData "addrA" sirius)) t1) =
    Rejected BlockHeightDiscrepancy /\
  fst (_addBlock staleLedger (Block_new (starData "addrA" sirius)) t1) =
    mkBlockchain
      (chain staleLedger ++
       [sealedAfter None 0 (Block_new (starData "addrA" sirius)) t1])
      (height staleLedger + 1) /\
  fst (_addBlock staleLedger (Block_new (starData "addrA" sirius)) t1) <>
    staleLedger.
Proof.
  assert (Hfst : fst (_addBlock staleLedger (Block_new (starData "addrA" sirius)) t1) =
                 mkBlockchain
                   (chain staleLedger ++
                    [sealedAfter None 0 (Block_new (starData "addrA" sirius)) t1])
                   (height staleLedger + 1))
    by (vm_compute; reflexivity).
  split; [vm_compute; discriminate|].
  split; [vm_compute; reflexivity|].
  split; [exact Hfst|].
  rewrite Hfst. intro H. apply (f_equal height) in H. vm_compute in H. discriminate.
Qed.


End Examples.

(** ** More on the validation of the chain *)

Section MoreValidation.

Context {L : Libraries} {C : RecordCodec}.

Lemma validateChain_cases self :
  match chain self with
  | [] => validateChain self = (self, Fulfilled [])
  | first :: _ =>
      (Block.height first <= 0 /\
       validateChain self = (self, Fulfilled (validateChain_gated (chain self)))) \/
      (0 < Block.height first /\ validateChain self = (self, Pending))
  end.
Proof.
  destruct (chain self) as [|first rest] eqn:E.
  - rewrite validateChain_gated_eq; rewrite E; auto.
  - destruct (Z.leb_spec (Block.height first) 0) as [Hlow|Hhigh].
    + left. split; [exact Hlow|].
      rewrite validateChain_gated_eq; rewrite E; auto.
    + right. split; [exact Hhigh|].
      now apply (validateChain_first_high self first rest).
Qed.

(** X1. The promise of [validateChain] is never rejected, and it stays
    pending exactly when the first block of the chain carries a height above
    0: the loop then reads the block before the first one, throws, and the
    [catch] clause fails on its unbound [reject]. On every other chain, the
    empty one included, the promise resolves. *)
Theorem validateChain_pending_iff self :
  (snd (validateChain self) = Pending <->
   exists first rest, chain self = first :: rest /\ 0 < Block.height first) /\
  (forall reason, snd (validateChain self) <> Rejected reason) /\
  (chain self = [] -> validateChain self = (self, Fulfilled [])).
Proof.
  pose proof (validateChain_cases self) as Hc.
  destruct (chain self) as [|first rest] eqn:E.
  - rewrite Hc. cbn [snd]. repeat split; try discriminate.
    intros (f & r & Hfr & _). discriminate.
  - destruct Hc as [[Hlow ->] | [Hhigh ->]]; cbn [snd].
    + repeat split; try discriminate.
      intros (f & r & [= <- <-] & Hf). lia.
    + repeat split; try discriminate.
      intros _. now exists first, rest.
Qed.

Lemma findings_gated_nil prev block :
  findings_gated prev block = [] <->
  Block_validate block = true /\
  (0 < Block.height block -> follows prev block).
Proof.
  unfold findings_gated, follows.
  destruct (Block_validate block) eqn:Hv.
  2: { split; [|intros [H _]; discriminate].
       intro H. apply app_eq_nil in H as [_ H]. discriminate. }
  rewrite app_nil_r.
  destruct (Z.gtb_spec (Block.height block) 0) as [Hpos|Hlow].
  2: { split; [|reflexivity]. intros _. split; [reflexivity | lia]. }
  destruct (Z.eqb_spec (Block.height block) (Block.height prev + 1)) as [Hh|Hh];
    destruct (option_string_eqb (Block.previousBlockHash block) (Block.hash prev))
      eqn:Hp; cbn [app].
  - split; [|reflexivity]. intros _. split; [reflexivity|].
    intros _. split; [exact Hh | now apply option_string_eqb_eq].
  - split; [discriminate|]. intros [_ H]. destruct (H Hpos) as [_ H'].
    apply option_string_eqb_eq in H'. congruence.
  - split; [discriminate|]. intros [_ H]. destruct (H Hpos) as [H' _].
    contradiction.
  - split; [discriminate|]. intros [_ H]. destruct (H Hpos) as [H' _].
    contradiction.
Qed.

Lemma validateFrom_gated_nil prev rest :
  validateFrom_gated prev rest = [] <->
  (forall b, In b rest -> Block_validate b = true) /\
  (forall i p b,
      nth_error (prev :: rest) i = Some p ->
      nth_error (prev :: rest) (S i) = Some b ->
      0 < Block.height b -> follows p b).
Proof.
  revert prev. induction rest as [|block rest IH]; intro prev.
  - cbn [validateFrom_gated]. split; [|reflexivity]. intros _. split.
    + intros b [].
    + intros i p b Hp Hb.
      destruct i as [|i]; [discriminate Hb | destruct i; discriminate Hp].
  - cbn [validateFrom_gated]. split.
    + intro H. apply app_eq_nil in H as [H1 H2].
      apply findings_gated_nil in H1 as [Hv Hf].
      apply IH in H2 as [Hvs Hfs]. split.
      * intros b [<-|Hb]; [exact Hv | now apply Hvs].
      * intros [|i] p b Hp Hb Hpos.
        -- cbn in Hp, Hb. injection Hp as <-. injection Hb as <-. now apply Hf.
        -- exact (Hfs i p b Hp Hb Hpos).
    + intros [Hvs Hfs].
      assert (H1 : findings_gated prev block = []).
      { apply findings_gated_nil. split.
        - apply Hvs. now left.
        - intro Hpos. exact (Hfs 0%nat prev block eq_refl eq_refl Hpos). }
      rewrite H1. cbn [app]. apply IH. split.
      * intros b Hb. apply Hvs. now right.
      * intros i p b Hp Hb. exact (Hfs (S i) p b Hp Hb).
Qed.

(** X2. [validateChain] resolves with the empty list exactly when the
    first block does not carry a height above 0, [validate] passes on every
    block, and every later block whose height is above 0 has the height of
    the block before it plus one as its height and that block's hash as its
    previous hash. A later block whose height is not above 0 is not held to
    its predecessor. *)
Theorem validateChain_empty_iff self :
  validateChain self = (self, Fulfilled []) <->
  (forall first, nth_error (chain self) 0 = Some first ->
                 Block.height first <= 0) /\
  (forall b, In b (chain self) -> Block_validate b = true) /\
  (forall i p b,
      nth_error (chain self) i = Some p ->
      nth_error (chain self) (S i) = Some b ->
      0 < Block.height b ->
      Block.height b = Block.height p + 1 /\
      Block.previousBlockHash b = Block.hash p).
Proof.
  pose proof (validateChain_cases self) as Hc.
  destruct (chain self) as [|first rest] eqn:E.
  - rewrite Hc. split; [|reflexivity]. intros _. repeat split.
    + intros f [=].
    + intros b [].
    + destruct i; discriminate.
    + destruct i; discriminate.
  - destruct Hc as [[Hlow ->] | [Hhigh ->]].
    + cbn [validateChain_gated]. split.
      * intros [= H]. apply app_eq_nil in H as [H1 H2].
        apply validateFrom_gated_nil in H2 as [Hvs Hfs].
        split; [intros f [= <-]; exact Hlow|]. split.
        -- intros b [<-|Hb]; [|now apply Hvs].
           destruct (Block_validate first); [reflexivity | discriminate].
        -- intros i p b Hp Hb Hpos. exact (Hfs i p b Hp Hb Hpos).
      * intros (_ & Hvs & Hfs).
        rewrite (Hvs first (or_introl eq_refl)). cbn [app].
        assert (H : validateFrom_gated first rest = []); [|now rewrite H].
        apply validateFrom_gated_nil. split.
        -- intros b Hb. apply Hvs. now right.
        -- intros i p b Hp Hb Hpos. exact (Hfs i p b Hp Hb Hpos).
    + split; [discriminate|]. intros (Hf & _).
      specialize (Hf first eq_refl). lia.
Qed.

End MoreValidation.

(** ** More on the ledger: heights, lookups, the height check *)

Section MoreLedger.

Context {L : Libraries} {C : RecordCodec}.

Lemma linkedFrom_heights g rest :
  linkedFrom g rest ->
  forall i b, nth_error (g :: rest) i = Some b ->
              Block.height b = Block.height g + Z.of_nat i.
Proof.
  revert g. induction rest as [|x rest IH]; intros g Hl i b Hb.
  - destruct i as [|i]; [|destruct i; discriminate].
    injection Hb as <-. cbn. lia.
  - destruct i as [|i].
    + injection Hb as <-. cbn. lia.
    + destruct Hl as ((Hh & _) & _ & Hrest).
      rewrite (IH x Hrest i b Hb), Hh. lia.
Qed.

Lemma sound_heights self :
  sound self ->
  height self = Z.of_nat (List.length (chain self)) - 1 /\
  forall i b, nth_error (chain self) i = Some b -> Block.height b = Z.of_nat i.
Proof.
  intros (g & rest & Hc & (Hg & _) & _ & Hl & Hh). rewrite Hc. split.
  - cbn [List.length]. lia.
  - intros i b Hb. rewrite (linkedFrom_heights g rest Hl i b Hb). lia.
Qed.

(** In a list whose heights count up from [k], the first block of height
    [n] is the one at position [n - k]. *)
Lemma filter_height_aligned (l : list Block) (k n : Z) :
  (forall i b, nth_error l i = Some b -> Block.height b = k + Z.of_nat i) ->
  nth_error (filter (fun block => Block.height block =? n) l) 0 =
  if n <? k then None else nth_error l (Z.to_nat (n - k)).
Proof.
  revert k. induction l as [|a l IH]; intros k Hal.
  - cbn. destruct (n <? k); [reflexivity|]. now destruct (Z.to_nat (n - k)).
  - assert (Ha : Block.height a = k).
    { rewrite (Hal 0%nat a eq_refl). cbn. lia. }
    assert (Hl : forall i b, nth_error l i = Some b ->
                             Block.height b = (k + 1) + Z.of_nat i).
    { intros i b Hb. rewrite (Hal (S i) b Hb). lia. }
    cbn [filter]. rewrite Ha.
    destruct (Z.eqb_spec k n) as [->|Hne].
    + rewrite Z.ltb_irrefl, Z.sub_diag. reflexivity.
    + rewrite (IH (k + 1) Hl).
      destruct (Z.ltb_spec n k) as [Hlt|Hge].
      * destruct (Z.ltb_spec n (k + 1)); [reflexivity | lia].
      * destruct (Z.ltb_spec n (k + 1)); [lia|].
        replace (Z.to_nat (n - k)) with (S (Z.to_nat (n - (k + 1)))) by lia.
        reflexivity.
Qed.

Lemma sound_getBlockByHeight self n :
  sound self ->
  snd (getBlockByHeight self n) =
  match (if n <? 0 then None else nth_error (chain self) (Z.to_nat n)) with
  | Some b => Fulfilled b
  | None => Rejected NotFound
  end.
Proof.
  intro Hs. destruct (sound_heights self Hs) as [_ Hal].
  unfold getBlockByHeight, firstMatch.
  rewrite (filter_height_aligned (chain self) 0 n).
  - rewrite Z.sub_0_r. destruct (n <? 0); [reflexivity|].
    now destruct (nth_error (chain self) (Z.to_nat n)).
  - intros i b Hb. rewrite (Hal i b Hb). lia.
Qed.

(** X3. In every reachable ledger the cached height is the length of the
    chain minus one and is not negative, the block at position [i] of the
    chain carries height [i], and [getBlockByHeight] resolves with the block
    at position [n] for every [n] from 0 to the cached height and is
    rejected for every other [n]. *)
Theorem reachable_lookup_by_height self :
  reachable self ->
  snd (getChainHeight self) =
    Fulfilled (Z.of_nat (List.length (chain self)) - 1) /\
  0 <= height self /\
  (forall i b, nth_error (chain self) i = Some b ->
               Block.height b = Z.of_nat i /\
               snd (getBlockByHeight self (Z.of_nat i)) = Fulfilled b) /\
  (forall n, n < 0 \/ height self < n ->
             snd (getBlockByHeight self n) = Rejected NotFound).
Proof.
  intro Hr. apply reachable_sound in Hr.
  destruct (sound_heights self Hr) as [Hh Hal].
  assert (Hne : (0 < List.length (chain self))%nat).
  { destruct Hr as (g & rest & -> & _). cbn. lia. }
  split; [cbn; now rewrite Hh|]. split; [lia|]. split.
  - intros i b Hb. split; [now apply Hal|].
    rewrite (sound_getBlockByHeight self (Z.of_nat i) Hr).
    destruct (Z.ltb_spec (Z.of_nat i) 0); [lia|].
    now rewrite Nat2Z.id, Hb.
  - intros n Hn. rewrite (sound_getBlockByHeight self n Hr).
    destruct (Z.ltb_spec n 0); [reflexivity|].
    destruct (nth_error (chain self) (Z.to_nat n)) eqn:E; [|reflexivity].
    assert (Z.to_nat n < List.length (chain self))%nat
      by (apply nth_error_Some; congruence).
    lia.
Qed.

End MoreLedger.

(** ** More on [_addBlock]: how its promise settles *)

Section MoreAppending.

Context {L : Libraries} {C : RecordCodec}.

Lemma sealBlock_none chain h block now :
  sealBlock chain h block now = None <->
  0 < h /\ Z.of_nat (List.length chain) <= h - 1.
Proof.
  unfold sealBlock, bindThrow.
  destruct (Z.gtb_spec h 0) as [Hpos|Hlow].
  - unfold JS.index. destruct (Z.ltb_spec (h - 1) 0); [lia|].
    destruct (nth_error chain (Z.to_nat (h - 1))) eqn:E.
    + split; [discriminate|]. intros [_ Hlen].
      assert (Z.to_nat (h - 1) < List.length chain)%nat
        by (apply nth_error_Some; congruence).
      lia.
    + split; [|reflexivity]. intros _. apply nth_error_None in E. lia.
  - split; [discriminate | lia].
Qed.

Lemma afterHeightCheck_fail self :
  Z.of_nat (List.length (chain self)) - height self <> 1 ->
  afterHeightCheck self = Rejected BlockHeightDiscrepancy.
Proof.
  intro H. unfold afterHeightCheck.
  destruct (Z.eqb_spec (Z.of_nat (List.length (chain self)) - height self) 1);
    [contradiction | reflexivity].
Qed.

(** X4. When the cached height has run up to the length of the chain or
    past it, [_addBlock] finds no block to link to: the promise is rejected
    with 'Block height discrepancy!', no block is pushed, and the cached
    height is advanced once more. *)
Theorem addBlock_height_overrun self block now :
  0 <= height self ->
  Z.of_nat (List.length (chain self)) <= height self ->
  _addBlock self block now =
  (mkBlockchain (chain self) (height self + 1), Rejected BlockHeightDiscrepancy).
Proof.
  intros Hpos Hlen.
  assert (Hseal : sealBlock (chain self) (height self + 1) block now = None)
    by (apply sealBlock_none; lia).
  rewrite (addBlock_thrown _ _ _ Hseal).
  rewrite afterHeightCheck_fail by lia. reflexivity.
Qed.

Lemma addBlock_check_preserved self block now :
  Z.of_nat (List.length (chain (fst (_addBlock self block now))))
  - height (fst (_addBlock self block now)) = 1 <->
  Z.of_nat (List.length (chain self)) - height self = 1.
Proof.
  destruct (sealBlock (chain self) (height self + 1) block now) as [sealed|] eqn:E.
  - rewrite (addBlock_sealed _ _ _ _ E). cbn [fst chain height].
    rewrite length_app. cbn [List.length]. lia.
  - rewrite (addBlock_thrown _ _ _ E). cbn [fst chain height].
    apply sealBlock_none in E. lia.
Qed.

Lemma submitStar_ledger self address message signature star now sealNow :
  ledger (submitStar self address message signature star now sealNow) = self \/
  (withinTimelock (timeNow now) (messageTime message) = true /\
   verify message address signature = true /\
   ledger (submitStar self address message signature star now sealNow) =
   fst (_addBlock self (Block_new (starData address star)) sealNow)).
Proof.
  unfold submitStar; cbv zeta.
  destruct (withinTimelock _ _); [|now left].
  destruct (verify message address signature); [|now left].
  right. repeat split.
  now destruct (_addBlock self (Block_new (starData address star)) sealNow)
    as [self' [|b|e]].
Qed.

(** X5. No call of the class repairs or breaks the agreement between the
    cached height and the chain: after any call the length of the chain is
    the cached height plus one exactly when it was so before. A ledger that
    fails the height check of [_addBlock] fails it for ever. *)
Theorem height_check_is_invariant call self :
  Z.of_nat (List.length (chain (ledgerAfter call self)))
  - height (ledgerAfter call self) = 1 <->
  Z.of_nat (List.length (chain self)) - height self = 1.
Proof.
  destruct call; cbn [ledgerAfter]; try reflexivity.
  - unfold initializeChain. destruct (height self =? -1); [|reflexivity].
    apply addBlock_check_preserved.
  - apply addBlock_check_preserved.
  - destruct (submitStar_ledger self address message signature star now sealNow)
      as [-> | (_ & _ & ->)]; [reflexivity|].
    apply addBlock_check_preserved.
  - unfold getBlockByHash. now rewrite firstMatch_frame.
  - unfold getBlockByHeight. now rewrite firstMatch_frame.
  - now rewrite validateChain_frame.
Qed.

(** X6. The promise of [_addBlock] stays pending exactly when the height
    check passes and the first block of the chain carries a height above 0,
    the case in which [validateChain] never settles; the block is pushed
    all the same. In every other case the promise settles. *)
Theorem addBlock_pending_iff self block now :
  snd (_addBlock self block now) = Pending <->
  Z.of_nat (List.length (chain self)) - height self = 1 /\
  exists first rest, chain self = first :: rest /\ 0 < Block.height first.
Proof.
  destruct (Z.eq_dec (Z.of_nat (List.length (chain self)) - height self) 1)
    as [Hcheck|Hbad].
  2: { destruct (addBlock_mismatch self block now Hbad) as [-> _].
       split; [discriminate | tauto]. }
  destruct (sealBlock_checked self block now Hcheck) as (prev & Hseal & Hprev).
  rewrite (addBlock_sealed _ _ _ _ Hseal). cbn [snd].
  unfold afterValidation. rewrite (afterHeightCheck_pass _ Hcheck).
  set (self' := mkBlockchain _ _).
  pose proof (validateChain_cases self') as Hc. subst self'. cbn [chain] in Hc.
  destruct (chain self) as [|first rest] eqn:E.
  - cbn [app] in Hc |- *.
    assert (Hlow : Block.height (sealedAfter prev (height self + 1) block now) <= 0).
    { destruct (sealedAfter_fields prev (height self + 1) block now) as [-> _].
      cbn [List.length] in Hcheck. lia. }
    destruct Hc as [[_ ->] | [Hhigh _]]; [|lia]. cbn [snd].
    split; [|intros (_ & f & r & [=] & _)].
    destruct (0 <? _); discriminate.
  - cbn [app] in Hc |- *. destruct Hc as [[Hlow ->] | [Hhigh ->]]; cbn [snd].
    + split.
      * destruct (0 <? _); discriminate.
      * intros (_ & f & r & [= <- <-] & Hf). lia.
    + split; [|reflexivity]. intros _. split; [exact Hcheck|].
      now exists first, rest.
Qed.


End MoreAppending.

(** ** More on the ownership protocol: the window of a challenge *)

Section MoreProtocol.

Context {L : Libraries} {C : RecordCodec}.

Lemma append_cons_assoc (cur : string) (c : ascii) (s : string) :
  ((cur ++ String c "") ++ s = cur ++ String c s)%string.
Proof. induction cur as [|d cur IH]; cbn; congruence. Qed.

Lemma append_empty_r (s : string) : (s ++ "" = s)%string.
Proof. induction s; cbn; congruence. Qed.

Lemma split_aux_colon (a rest cur : string) :
  noColon a = true ->
  JS.split_aux ":" (a ++ String ":" rest) cur =
  (cur ++ a)%string :: JS.split_aux ":" rest "".
Proof.
  revert cur. induction a as [|c a IH]; intros cur Ha.
  - cbn. now rewrite append_empty_r.
  - cbn [noColon] in Ha. apply andb_prop in Ha as [Hc Ha].
    cbn [String.append JS.split_aux]. destruct (Ascii.eqb c ":"); [discriminate|].
    now rewrite IH, append_cons_assoc.
Qed.

(** The second field of [first:second:rest]. *)
Lemma messageTime_second_field (first second rest : string) :
  noColon first = true -> noColon second = true ->
  messageTime (first ++ ":" ++ second ++ ":" ++ rest) = JS.parseInt (Some second).
Proof.
  intros H1 H2. unfold messageTime, JS.split.
  change (first ++ ":" ++ second ++ ":" ++ rest)%string
    with (first ++ String ":" (second ++ String ":" rest))%string.
  rewrite split_aux_colon by exact H1.
  rewrite split_aux_colon by exact H2. reflexivity.
Qed.

Lemma noColon_uint (d : Decimal.uint) :
  noColon (NilEmpty.string_of_uint d) = true.
Proof. induction d; cbn; auto. Qed.

Lemma noColon_toString (n : Z) : noColon (JS.toString n) = true.
Proof.
  unfold JS.toString, NilZero.string_of_int, NilZero.string_of_uint.
  destruct (Z.to_int n) as [d|d]; destruct d;
    try reflexivity; try apply (noColon_uint (_ d));
    cbn [noColon]; try apply (noColon_uint (_ d)).
Qed.

Lemma noColon_substring (s : string) (n m : nat) :
  noColon s = true -> noColon (substring n m s) = true.
Proof.
  revert n m. induction s as [|c s IH]; intros n m Hs.
  - destruct n, m; reflexivity.
  - cbn [noColon] in Hs. apply andb_prop in Hs as [Hc Hs].
    destruct n as [|n]; [destruct m as [|m]|]; cbn [substring noColon].
    + reflexivity.
    + now rewrite Hc, IH.
    + now apply IH.
Qed.

Lemma noColon_epochSeconds (now : Z) : noColon (epochSeconds now) = true.
Proof. apply noColon_substring, noColon_toString. Qed.

(** X7. The window of a challenge, end to end. On a reachable ledger, a
    challenge issued for a colon-free address when the clock read [issued]
    and submitted with a verifying signature when the clock reads [now] is
    accepted, and its block appended, exactly when the whole epoch seconds
    of the two readings differ by less than 300; otherwise it is rejected
    and the ledger is as before. *)
Theorem issued_challenge_window self address signature star issued now sealNow
    message :
  reachable self ->
  noColon address = true ->
  1000 <= issued -> 1000 <= now ->
  snd (requestMessageOwnershipVerification self address issued) =
    Fulfilled message ->
  verify message address signature = true ->
  exists sealed,
    Block.body sealed = encode (starData address star) /\
    submitStar self address message signature star now sealNow =
    if now / 1000 - issued / 1000 <? 300
    then mkSubmitted (mkBlockchain (chain self ++ [sealed]) (height self + 1))
                     (Fulfilled sealed) [(message, address, signature)]
    else mkSubmitted self (Rejected TimedOutOrNotVerified) [].
Proof.
  intros Hr Ha Hi Hn Hmsg Hv. apply reachable_sound in Hr.
  assert (Hm : messageTime message = Some (issued / 1000)).
  { unfold requestMessageOwnershipVerification in Hmsg.
    cbn [snd resolve] in Hmsg. injection Hmsg as <-.
    rewrite <- (timeNow_seconds issued Hi).
    exact (messageTime_second_field address (epochSeconds issued)
             "starRegistry" Ha (noColon_epochSeconds issued)). }
  destruct (sound_addBlock self (starData address star) sealNow Hr)
    as (prev & _ & Heq & _).
  eexists. split.
  - apply (sealedAfter_fields (Some prev) (height self + 1)
             (Block_new (starData address star)) sealNow).
  - unfold submitStar; cbv zeta.
    rewrite Hm, (timeNow_seconds now Hn). cbn [withinTimelock].
    destruct (now / 1000 - issued / 1000 <? 300); [|reflexivity].
    rewrite Hv, Heq. reflexivity.
Qed.

End MoreProtocol.

(** ** More on [submitStar] *)

Section MoreOperations.

Context {L : Libraries} {C : RecordCodec}.


End MoreOperations.

(** ** The further properties on the concrete instance *)

Module Scenarios.

Import Demo.

(** X3 at the ledger that holds one star. *)
Lemma reachable_lookup_by_height_witness :
  reachable ledger1 /\
  snd (getChainHeight ledger1) = Fulfilled 1 /\
  snd (getBlockByHeight ledger1 2) = Rejected NotFound.
Proof.
  assert (Hr : reachable ledger1) by apply Examples.ledger1_reachable.
  split; [exact Hr|].
  destruct (reachable_lookup_by_height ledger1 Hr) as (Hh & _ & _ & Hout).
  split; [exact Hh|]. apply Hout. right. vm_compute. reflexivity.
Defined.

(** X4 at a ledger that holds the genesis block and a cached height of 1. *)
Lemma addBlock_height_overrun_witness :
  0 <= height (mkBlockchain (chain ledger0) 1) /\
  Z.of_nat (List.length (chain (mkBlockchain (chain ledger0) 1)))
    <= height (mkBlockchain (chain ledger0) 1) /\
  _addBlock (mkBlockchain (chain ledger0) 1)
    (Block_new (starData "addrA" sirius)) t1 =
  (mkBlockchain (chain ledger0) 2, Rejected BlockHeightDiscrepancy).
Proof.
  assert (H0 : 0 <= height (mkBlockchain (chain ledger0) 1))
    by (vm_compute; discriminate).
  assert (H1 : Z.of_nat (List.length (chain (mkBlockchain (chain ledger0) 1)))
               <= height (mkBlockchain (chain ledger0) 1))
    by (vm_compute; discriminate).
  split; [exact H0|]. split; [exact H1|].
  exact (addBlock_height_overrun (mkBlockchain (chain ledger0) 1)
           (Block_new (starData "addrA" sirius)) t1 H0 H1).
Defined.

(** X7: the challenge of addrA, submitted 299 seconds after its issue. *)
Lemma issued_challenge_window_witness :
  reachable ledger0 /\
  noColon "addrA" = true /\
  1000 <= t1 /\ 1000 <= t1 + 299000 /\
  snd (requestMessageOwnershipVerification ledger0 "addrA" t1) =
    Fulfilled challengeA /\
  verify challengeA "addrA" (sign "addrA" challengeA) = true /\
  exists sealed,
    submitStar ledger0 "addrA" challengeA (sign "addrA" challengeA) sirius
      (t1 + 299000) (t1 + 299000) =
    mkSubmitted (mkBlockchain (chain ledger0 ++ [sealed]) (height ledger0 + 1))
                (Fulfilled sealed)
                [(challengeA, "addrA", sign "addrA" challengeA)].
Proof.
  assert (Hr : reachable ledger0) by apply Examples.ledger0_reachable.
  assert (Ha : noColon "addrA" = true) by reflexivity.
  assert (Hi : 1000 <= t1) by (vm_compute; discriminate).
  assert (Hn : 1000 <= t1 + 299000) by (vm_compute; discriminate).
  assert (Hm : snd (requestMessageOwnershipVerification ledger0 "addrA" t1)
               = Fulfilled challengeA) by reflexivity.
  assert (Hv : verify challengeA "addrA" (sign "addrA" challengeA) = true)
    by reflexivity.
  repeat (split; [assumption|]).
  destruct (issued_challenge_window ledger0 "addrA" (sign "addrA" challengeA)
              sirius t1 (t1 + 299000) (t1 + 299000) challengeA
              Hr Ha Hi Hn Hm Hv) as (sealed & _ & Heq).
  exists sealed. exact Heq.
Defined.


End Scenarios.
